(** * kksubs: subtitle layout and layer compositing

    A shallow embedding of [src/kksubs/model/subtitle_services.py]
    ([_get_text_dimensions], [add_background], [apply_subtitle_to_image],
    [SubtitleService.apply_subtitle_group]) together with the part of
    Python's [textwrap] module and of Pillow's [Image.paste] that the
    program's behaviour depends on.

    Conventions.
    - Python [str] is a list of characters; characters are 8-bit
      ([ascii]), i.e. code points 0..255.
    - Python [int] is [Z]; the true division [/] of the positioning
      formulas produces a [float], modelled by the exact rational [Q].
    - An exception is a value of [exn]; a computation that may raise has
      type [exn + A].
    - The canvas is a mutable object shared with the caller:
      [apply_subtitle_to_image] therefore reports, also when it raises,
      the canvas as it is at that moment ([outcome]). *)

From Stdlib Require Import String Ascii ZArith NArith QArith Qround Bool Lia List.
From Stdlib.Strings Require Import Byte.
Import ListNotations.

Local Open Scope Z_scope.

(** ** Exceptions *)

Inductive exn : Type :=
| OSError_image           (* Image.open(image_path) fails *)
| OSError_background      (* Image.open(background_image_path) fails *)
| ValueError_width        (* textwrap: "invalid width (must be > 0)" *)
| OSError_font            (* ImageFont.truetype cannot open the resource *)
| TypeError_bbox          (* getbbox() returned None, then subscripted *)
| ValueError_max          (* max() of an empty sequence *)
| ValueError_alignment    (* "Invalid alignment value ..." *)
| ValueError_push.        (* "Invalid push value ..." *)

Definition bind {A B : Type} (m : exn + A) (k : A -> exn + B) : exn + B :=
  match m with
  | inl e => inl e
  | inr a => k a
  end.

Notation "x <- m ;; k" := (bind m (fun x => k))
  (at level 61, m at next level, right associativity).
Notation "' p <- m ;; k" := (bind m (fun x => let p := x in k))
  (at level 61, p pattern, m at next level, right associativity).

(** [[f(x) for x in xs]] where [f] may raise: left to right, the first
    exception wins. *)
Fixpoint mapM {A B : Type} (f : A -> exn + B) (xs : list A) : exn + list B :=
  match xs with
  | [] => inr []
  | x :: xs' => y <- f x ;; ys <- mapM f xs' ;; inr (y :: ys)
  end.

(** ** Strings *)

Definition text : Type := list ascii.

Definition str (s : string) : text := list_ascii_of_string s.

(** [len(s)] *)
Definition len {A : Type} (s : list A) : Z := Z.of_nat (length s).

Definition code (c : ascii) : N := N_of_ascii c.

Definition between (lo hi n : N) : bool := ((lo <=? n) && (n <=? hi))%N.

(** [string.whitespace], the class [textwrap] works with:
    tab, newline, vertical tab, form feed, carriage return, space. *)
Definition in_whitespace (c : ascii) : bool :=
  between 9 13 (code c) || (code c =? 32)%N.

(** [str.isspace] on a character, the class [str.strip()] removes. *)
Definition isspace (c : ascii) : bool :=
  between 9 13 (code c) || between 28 32 (code c)
  || (code c =? 133)%N || (code c =? 160)%N.

Definition is_hyphen (c : ascii) : bool := (code c =? 45)%N.

(** [\d] *)
Definition is_decimal (c : ascii) : bool := between 48 57 (code c).

(** [\w]: alphanumeric or underscore. *)
Definition word_char (c : ascii) : bool :=
  let n := code c in
  between 48 57 n || between 65 90 n || between 97 122 n || (n =? 95)%N
  || (n =? 170)%N || (n =? 181)%N || (n =? 186)%N
  || between 178 179 n || (n =? 185)%N || between 188 190 n
  || between 192 214 n || between 216 246 n || between 248 255 n.

(** [letter = [^\d\W]] *)
Definition letter (c : ascii) : bool := word_char c && negb (is_decimal c).

(** [word_punct]: a word character or one of ! (33), double quote (34),
    & (38), apostrophe (39), comma (44), full stop (46), ? (63). *)
Definition word_punct (c : ascii) : bool :=
  let n := code c in
  word_char c || (n =? 33)%N || (n =? 34)%N || (n =? 39)%N || (n =? 38)%N
  || (n =? 46)%N || (n =? 44)%N || (n =? 63)%N.

Definition space : ascii := " "%char.

(** [chunk.strip() == ''] *)
Definition strip_is_empty (s : text) : bool := forallb isspace s.

Definition nonempty {A : Type} (l : list A) : bool :=
  match l with [] => false | _ :: _ => true end.

(** Python slices [s[:e]] and [s[e:]]: a negative bound counts from the
    end, and every bound is clipped to the string. *)
Definition clip (s : text) (e : Z) : nat :=
  Z.to_nat (if e <? 0 then Z.max 0 (len s + e) else e).

Definition slice_to (s : text) (e : Z) : text := firstn (clip s e) s.
Definition slice_from (s : text) (e : Z) : text := skipn (clip s e) s.

(** ** textwrap.wrap (TextWrapper with its default options)

    [expand_tabs], [replace_whitespace], [drop_whitespace],
    [break_long_words] and [break_on_hyphens] are on; both indents are
    empty; [max_lines] is [None]; [tabsize] is 8. *)

(** [str.expandtabs(tabsize)]: [col] is the current column. *)
Fixpoint expandtabs_from (tabsize : nat) (col : nat) (s : text) : text :=
  match s with
  | [] => []
  | c :: s' =>
      if (code c =? 9)%N then
        match tabsize with
        | O => expandtabs_from tabsize col s'
        | S _ =>
            let incr := (tabsize - col mod tabsize)%nat in
            repeat space incr ++ expandtabs_from tabsize (col + incr) s'
        end
      else
        c :: expandtabs_from tabsize
               (if (code c =? 10)%N || (code c =? 13)%N then 0%nat else S col) s'
  end.

Definition expandtabs (s : text) : text := expandtabs_from 8 0 s.

(** [text.translate(unicode_whitespace_trans)] *)
Definition translate_whitespace (s : text) : text :=
  map (fun c => if in_whitespace c then space else c) s.

Definition _munge_whitespace (s : text) : text :=
  translate_whitespace (expandtabs s).

(** *** The chunk splitter [wordsep_re.split]

    The pattern has three alternatives, tried in this order at the
    current position: a run of whitespace; an em-dash (two or more
    hyphens between a word-punctuation character and a word character);
    a word, taken lazily up to a hyphenation point, the end of the word,
    or the start of an em-dash.  [before] is the text already passed,
    most recent character first (the look-behinds read it). *)

Fixpoint span_len (p : ascii -> bool) (s : text) : nat :=
  match s with
  | c :: s' => if p c then S (span_len p s') else O
  | [] => O
  end.

(** [-{2,}] followed by [\w] at the front of [s]: the number of hyphens,
    or 0 when there is no such match. *)
Definition dashes_then_word (s : text) : nat :=
  let k := span_len is_hyphen s in
  if (2 <=? k)%nat then
    match skipn k s with
    | c :: _ => if word_char c then k else O
    | [] => O
    end
  else O.

Definition behind_word_punct (before : text) : bool :=
  match before with
  | c :: _ => word_punct c
  | [] => false
  end.

(** The look-behinds of the hyphenated alternative, read just after the
    hyphen: [(?<=lt{2}-)] or [(?<=lt-lt-)]. *)
Definition behind_hyphenation (before : text) : bool :=
  match before with
  | b1 :: b2 :: rest =>
      (letter b1 && letter b2)
      || (letter b1 && is_hyphen b2
          && match rest with b3 :: _ => letter b3 | [] => false end)
  | _ => false
  end.

(** The look-ahead [(?= lt -? lt)]. *)
Definition ahead_hyphenation (after : text) : bool :=
  match after with
  | c1 :: c2 :: rest =>
      letter c1
      && (if is_hyphen c2
          then match rest with c3 :: _ => letter c3 | [] => false end
          else letter c2)
  | _ => false
  end.

(** How many more characters the word alternative takes once its first
    character is consumed (the hyphen of a hyphenation point included). *)
Fixpoint word_end (before after : text) : nat :=
  match after with
  | [] => O
  | c :: after' =>
      if is_hyphen c && behind_hyphenation before && ahead_hyphenation after'
      then 1%nat
      else if in_whitespace c then O
      else if behind_word_punct before && (2 <=? dashes_then_word after)%nat
      then O
      else S (word_end (c :: before) after')
  end.

(** Length of the match of [wordsep_re] at the front of [s]. *)
Definition match_len (before s : text) : nat :=
  match s with
  | [] => O
  | c :: s' =>
      if in_whitespace c then span_len in_whitespace s
      else if behind_word_punct before && (2 <=? dashes_then_word s)%nat
      then dashes_then_word s
      else S (word_end (c :: before) s')
  end.

Fixpoint split_from (fuel : nat) (before s : text) : list text :=
  match fuel, s with
  | S fuel', _ :: _ =>
      let n := match_len before s in
      firstn n s :: split_from fuel' (rev (firstn n s) ++ before) (skipn n s)
  | _, _ => []
  end.

(** [_split]: the matches of the pattern, empty strings removed. *)
Definition _split (s : text) : list text :=
  filter nonempty (split_from (length s) [] s).

Definition _split_chunks (s : text) : list text :=
  _split (_munge_whitespace s).

(** *** [_wrap_chunks]

    Python reverses [chunks] and pops from the end; here the list is kept
    in reading order and the head is the top of that stack. *)

(** The inner [while chunks:] loop: move to the current line every chunk
    that still fits. *)
Fixpoint fill_line (width : Z) (chunks cur_line : list text) (cur_len : Z)
  : list text * list text * Z :=
  match chunks with
  | [] => ([], cur_line, cur_len)
  | c :: rest =>
      if cur_len + len c <=? width
      then fill_line width rest (cur_line ++ [c]) (cur_len + len c)
      else (chunks, cur_line, cur_len)
  end.

(** [chunk.rfind('-', 0, e)]: the highest index below [e] holding a
    hyphen, or -1. *)
Fixpoint rfind_from (i : Z) (s : text) : Z :=
  match s with
  | [] => -1
  | c :: s' =>
      let r := rfind_from (i + 1) s' in
      if 0 <=? r then r else if is_hyphen c then i else -1
  end.

Definition rfind_hyphen (s : text) (e : Z) : Z := rfind_from 0 (slice_to s e).

Definition _handle_long_word (chunks cur_line : list text) (cur_len width : Z)
  : list text * list text :=
  let space_left := if width <? 1 then 1 else width - cur_len in
  match chunks with
  | [] => (chunks, cur_line)
  | chunk :: rest =>
      let end_ :=
        if space_left <? len chunk then
          let hyphen := rfind_hyphen chunk space_left in
          if (0 <? hyphen)
             && existsb (fun c => negb (is_hyphen c)) (slice_to chunk hyphen)
          then hyphen + 1 else space_left
        else space_left in
      (slice_from chunk end_ :: rest, cur_line ++ [slice_to chunk end_])
  end.

(** One pass of the outer [while chunks:] loop. *)
Definition wrap_step (width : Z) (chunks lines : list text)
  : list text * list text :=
  let chunks :=
    match chunks with
    | top :: below => if strip_is_empty top && nonempty lines then below else chunks
    | [] => chunks
    end in
  let '(chunks, cur_line, cur_len) := fill_line width chunks [] 0 in
  let '(chunks, cur_line) :=
    match chunks with
    | c :: _ =>
        if width <? len c
        then _handle_long_word chunks cur_line cur_len width
        else (chunks, cur_line)
    | [] => (chunks, cur_line)
    end in
  let cur_line :=
    if nonempty cur_line && strip_is_empty (last cur_line [])
    then removelast cur_line else cur_line in
  (chunks, if nonempty cur_line then lines ++ [concat cur_line] else lines).

Fixpoint wrap_loop (fuel : nat) (width : Z) (chunks lines : list text)
  : option (list text) :=
  match chunks with
  | [] => Some lines
  | _ :: _ =>
      match fuel with
      | O => None
      | S fuel' =>
          let '(chunks', lines') := wrap_step width chunks lines in
          wrap_loop fuel' width chunks' lines'
      end
  end.

(** Every pass removes a chunk or shortens one, so this many passes are
    enough ([wrap_loop_total] below). *)
Definition weight (chunks : list text) : nat :=
  fold_right (fun c n => S (length c + n)) O chunks.

Definition _wrap_chunks (width : Z) (chunks : list text) : exn + list text :=
  if width <=? 0 then inl ValueError_width
  else match wrap_loop (S (weight chunks)) width chunks [] with
       | Some lines => inr lines
       | None => inr []
       end.

Definition wrap (s : text) (width : Z) : exn + list text :=
  _wrap_chunks width (_split_chunks s).


(** ** Images (Pillow, mode RGBA) *)

Definition u8 : Type := byte.

Definition Z_of_u8 (b : u8) : Z := Z.of_N (Byte.to_N b).

(** Storing a C [int] into a [UINT8]. *)
Definition u8_of_Z (z : Z) : u8 :=
  match Byte.of_N (Z.to_N (z mod 256)) with
  | Some b => b
  | None => x00
  end.

Record pixel : Type := RGBA { red : u8; green : u8; blue : u8; alpha : u8 }.

Definition Color : Type := pixel.

Definition raster : Type := Z -> Z -> pixel.

Record Image : Type := mkImage { size : Z * Z; getpixel : raster }.

(** [Image.new("RGBA", size, color)] *)
Definition Image_new (sz : Z * Z) (c : Color) : Image := mkImage sz (fun _ _ => c).

Definition inside (sz : Z * Z) (x y : Z) : bool :=
  (0 <=? x) && (x <? fst sz) && (0 <=? y) && (y <? snd sz).

(** Pillow's [DIV255] and [BLEND] macros. *)
Definition DIV255 (a : Z) : Z :=
  let tmp := a + 128 in Z.shiftr (Z.shiftr tmp 8 + tmp) 8.

Definition BLEND (mask in1 in2 : u8) : u8 :=
  u8_of_Z (DIV255 (Z_of_u8 in1 * (255 - Z_of_u8 mask) + Z_of_u8 in2 * Z_of_u8 mask)).

Definition blend_pixel (mask : u8) (out inp : pixel) : pixel :=
  RGBA (BLEND mask (red out) (red inp)) (BLEND mask (green out) (green inp))
       (BLEND mask (blue out) (blue inp)) (BLEND mask (alpha out) (alpha inp)).

(** [image.paste(im, (0, 0), mask)] with an RGBA [mask]: the region of
    [im] that lies on [image] is blended in, every band through the
    alpha band of [mask]; [image] keeps its size. *)
Definition paste (image im mask : Image) : Image :=
  mkImage (size image)
    (fun x y =>
       if inside (size image) x y && inside (size im) x y
       then blend_pixel (alpha (getpixel mask x y)) (getpixel image x y) (getpixel im x y)
       else getpixel image x y).

(** ** Fonts (a loaded [ImageFont.FreeTypeFont]) *)

Record Font : Type := mkFont {
  getmetrics : Z * Z;                              (* ascent, descent *)
  getmask_getbbox : text -> option (Z * Z * Z * Z); (* font.getmask(t).getbbox() *)
  getlength : text -> Q                            (* font.getlength(t) *)
}.

(** ** Domain models, as [apply_subtitle_to_image] reads them *)

Module FontData.
Record t : Type := mk {
  style : string; color : Color; size : Z;
  stroke_size : option Z; stroke_color : option Color }.
End FontData.

Module OutlineData.
Record t : Type := mk { color : Color; radius : Z; blur_strength : option Q }.
End OutlineData.

Module TextboxData.
Record t : Type := mk {
  alignment : string; anchor_point : Q * Q; box_width : Z; push : string }.
End TextboxData.

Record SubtitleProfile : Type := mkProfile {
  font_data : FontData.t;
  outline_data_1 : option OutlineData.t;
  outline_data_2 : option OutlineData.t;
  textbox_data : TextboxData.t;
  background_image_path : option string }.

Record Subtitle : Type := mkSubtitle {
  subtitle_profile : SubtitleProfile; content : list text }.

Record SubtitleGroup : Type := mkGroup {
  image_id : string; subtitle_list : list Subtitle }.

(** ** What the program calls in Pillow and the file system

    The rasteriser and the blur are left open: [draw_text layer xy line
    font fill stroke_width stroke_fill] is the raster of [layer] after
    [ImageDraw.Draw(layer).text(xy, line, font=.., fill=..,
    stroke_width=.., stroke_fill=..)], and [GaussianBlur radius layer]
    the raster of [layer.filter(ImageFilter.GaussianBlur(radius))].
    Neither changes the size of the layer. *)

Record Backend : Type := mkBackend {
  os_path_join : string -> string -> string;
  Image_open : string -> option Image;
  truetype : string -> Z -> option Font;
  draw_text : Image -> Q * Q -> text -> Font -> Color -> Z -> option Color -> raster;
  GaussianBlur : Q -> Image -> raster }.

(** ** subtitle_services.py *)

Definition _get_text_dimensions (text_string : text) (font : Font) : exn + (Z * Z) :=
  let '(ascent, descent) := getmetrics font in
  match getmask_getbbox font text_string with
  | None => inl TypeError_bbox
  | Some (_, _, x1, y1) =>
      let text_width := x1 in
      let text_height := y1 + descent in
      inr (text_width, text_height)
  end.

Definition add_background (image background_image : Image) : Image :=
  paste image background_image background_image.

(** The outcome of a call that mutates the caller's canvas. *)
Inductive outcome : Type :=
| Returned (image : Image)
| Raised (e : exn) (image : Image).

(** The images the line loop works on. *)
Record layers : Type := mkLayers {
  canvas : Image;                (* the caller's [image] *)
  text_layer : Image;
  outline_1_layer : Image;
  outline_2_layer : Image }.

(** Line 65: [[_line for line in content
               for _line in textwrap.wrap(line, width=box_width)]] *)
Definition wrapped (content : list text) (box_width : Z) : exn + list text :=
  per_line <- mapM (fun line => wrap line box_width) content ;;
  inr (concat per_line).

(** [max(text_widths)] *)
Definition max_ (l : list Z) : exn + Z :=
  match l with
  | [] => inl ValueError_max
  | x :: l' => inr (fold_left Z.max l' x)
  end.

Local Open Scope Q_scope.

(** Lines 80-87. *)
Definition line_x (alignment : string) (image_width : Z) (tb_anchor_x text_width : Q)
  : exn + Q :=
  if (alignment =? "left")%string then
    inr ((inject_Z image_width + text_width) / 2 + tb_anchor_x - text_width / 2)
  else if (alignment =? "center")%string then
    inr (inject_Z image_width / 2 + tb_anchor_x - text_width / 2)
  else if (alignment =? "right")%string then
    inr ((inject_Z image_width - text_width) / 2 + tb_anchor_x - text_width / 2)
  else inl ValueError_alignment.

(** Lines 88-93. *)
Definition line_y (push : string) (image_height : Z) (tb_anchor_y : Q)
    (text_height num_lines sum_text_height i : Z) : exn + Q :=
  if (push =? "up")%string then
    inr (inject_Z image_height / 2 - tb_anchor_y
         + inject_Z (- (text_height * (num_lines - i))))
  else if (push =? "down")%string then
    inr (inject_Z image_height / 2 - tb_anchor_y
         + inject_Z (sum_text_height - text_height * (num_lines - i)))
  else inl ValueError_push.

(** Lines 78-94: the origin of line [i]. *)
Definition line_pos (font : Font) (textbox_data : TextboxData.t)
    (image_width image_height text_height num_lines sum_text_height : Z)
    (i : Z) (line : text) : exn + Q * Q :=
  let text_width := getlength font line in
  let '(tb_anchor_x, tb_anchor_y) := TextboxData.anchor_point textbox_data in
  x <- line_x (TextboxData.alignment textbox_data) image_width tb_anchor_x text_width ;;
  y <- line_y (TextboxData.push textbox_data) image_height tb_anchor_y
         text_height num_lines sum_text_height i ;;
  inr (x, y).

Local Close Scope Q_scope.

Definition redraw (layer : Image) (r : raster) : Image := mkImage (size layer) r.

(** Lines 96-114: what one pass of the line loop does once the origin is
    known. *)
Definition draw_line (B : Backend) (font : Font) (subtitle_profile : SubtitleProfile)
    (st : layers) (line_pos : Q * Q) (line : text) : layers :=
  let font_data := font_data subtitle_profile in
  let outline_2_layer :=
    match outline_data_2 subtitle_profile with
    | Some o =>
        redraw (outline_2_layer st)
          (draw_text B (outline_2_layer st) line_pos line font
             (OutlineData.color o) (OutlineData.radius o) (Some (OutlineData.color o)))
    | None => outline_2_layer st
    end in
  let outline_1_layer :=
    match outline_data_1 subtitle_profile with
    | Some o =>
        redraw (outline_1_layer st)
          (draw_text B (outline_1_layer st) line_pos line font
             (OutlineData.color o) (OutlineData.radius o) (Some (OutlineData.color o)))
    | None => outline_1_layer st
    end in
  let text_layer :=
    match FontData.stroke_size font_data with
    | Some font_stroke_size =>
        redraw (text_layer st)
          (draw_text B (text_layer st) line_pos line font (FontData.color font_data)
             font_stroke_size (FontData.stroke_color font_data))
    | None =>
        redraw (text_layer st)
          (draw_text B (text_layer st) line_pos line font (FontData.color font_data)
             0 None)
    end in
  mkLayers (paste (canvas st) text_layer text_layer)
           text_layer outline_1_layer outline_2_layer.

(** Lines 77-114: [for i, line in enumerate(wrapped_text)].  An exception
    leaves the images as the previous passes made them. *)
Fixpoint add_text (B : Backend) (font : Font) (subtitle_profile : SubtitleProfile)
    (image_width image_height text_height num_lines sum_text_height : Z)
    (st : layers) (i : Z) (lines : list text) : option exn * layers :=
  match lines with
  | [] => (None, st)
  | line :: rest =>
      match line_pos font (textbox_data subtitle_profile) image_width image_height
              text_height num_lines sum_text_height i line with
      | inl e => (Some e, st)
      | inr xy =>
          add_text B font subtitle_profile image_width image_height text_height
            num_lines sum_text_height
            (draw_line B font subtitle_profile st xy line) (i + 1) rest
      end
  end.

(** [o.blur_strength is not None and o.blur_strength] *)
Definition blurred (B : Backend) (o : OutlineData.t) (layer : Image) : Image :=
  match OutlineData.blur_strength o with
  | Some radius =>
      if Qeq_bool radius 0 then layer
      else redraw layer (GaussianBlur B radius layer)
  | None => layer
  end.

(** Lines 116-126. *)
Definition apply_paste (B : Backend) (subtitle_profile : SubtitleProfile) (st : layers)
  : Image :=
  let image :=
    match outline_data_2 subtitle_profile with
    | Some o =>
        let outline_2_layer := blurred B o (outline_2_layer st) in
        paste (canvas st) outline_2_layer outline_2_layer
    | None => canvas st
    end in
  let image :=
    match outline_data_1 subtitle_profile with
    | Some o =>
        let outline_1_layer := blurred B o (outline_1_layer st) in
        paste image outline_1_layer outline_1_layer
    | None => image
    end in
  paste image (text_layer st) (text_layer st).

Definition transparent_white : Color := RGBA xff xff xff x00.

(** Lines 64-74, everything that may raise between the background and
    the line loop, in program order. *)
Definition analyze_text (B : Backend) (subtitle : Subtitle)
  : exn + (list text * Font * Z) :=
  let font_data := font_data (subtitle_profile subtitle) in
  let box_width := TextboxData.box_width (textbox_data (subtitle_profile subtitle)) in
  wrapped_text <- wrapped (content subtitle) box_width ;;
  font <- match truetype B (FontData.style font_data) (FontData.size font_data) with
          | Some font => inr font
          | None => inl OSError_font
          end ;;
  text_dimensions <- mapM (fun line => _get_text_dimensions line font) wrapped_text ;;
  let text_widths := map fst text_dimensions in
  max_text_width <- max_ text_widths ;;
  dim_l <- _get_text_dimensions (str "l") font ;;
  let text_height := snd dim_l in
  inr (wrapped_text, font, text_height).

(** Lines 39-42. *)
Definition open_background (B : Backend) (image : Image)
    (subtitle_profile : SubtitleProfile) : exn + Image :=
  match background_image_path subtitle_profile with
  | Some background_image_path =>
      match Image_open B background_image_path with
      | Some background_image => inr (add_background image background_image)
      | None => inl OSError_background
      end
  | None => inr image
  end.

(** Lines 39-114: everything up to the end of the line loop.  On an
    exception the canvas is returned as it is at that moment. *)
Definition render_lines (B : Backend) (image : Image) (subtitle : Subtitle)
  : exn * Image + layers :=
  let subtitle_profile := subtitle_profile subtitle in
  match open_background B image subtitle_profile with
  | inl e => inl (e, image)
  | inr image =>
      let '(image_width, image_height) := size image in
      let text_layer := Image_new (size image) transparent_white in
      let outline_1_layer := Image_new (size image) transparent_white in
      let outline_2_layer := Image_new (size image) transparent_white in
      match analyze_text B subtitle with
      | inl e => inl (e, image)
      | inr (wrapped_text, font, text_height) =>
          let num_lines := len wrapped_text in
          let sum_text_height := num_lines * text_height in
          match add_text B font subtitle_profile image_width image_height
                  text_height num_lines sum_text_height
                  (mkLayers image text_layer outline_1_layer outline_2_layer)
                  0 wrapped_text with
          | (Some e, st) => inl (e, canvas st)
          | (None, st) => inr st
          end
      end
  end.

Definition apply_subtitle_to_image (B : Backend) (image : Image) (subtitle : Subtitle)
  : outcome :=
  match render_lines B image subtitle with
  | inl (e, image) => Raised e image
  | inr st => Returned (apply_paste B (subtitle_profile subtitle) st)
  end.

(** The service and its data access object, as far as
    [apply_subtitle_group] reads them. *)
Record SubtitleDataAccessService : Type := mkModel {
  input_image_directory : string }.

Record SubtitleService : Type := mkService {
  subtitle_model : SubtitleDataAccessService }.

(** Lines 141-143: [for subtitle in subtitle_list].  The canvas is local
    to [apply_subtitle_group], so nothing of it is left when a subtitle
    raises. *)
Fixpoint apply_subtitles (B : Backend) (image : Image) (subtitle_list : list Subtitle)
  : exn + Image :=
  match subtitle_list with
  | [] => inr image
  | subtitle :: rest =>
      match apply_subtitle_to_image B image subtitle with
      | Returned image => apply_subtitles B image rest
      | Raised e _ => inl e
      end
  end.

(** [SubtitleService.apply_subtitle_group]: the copy of the opened image
    is the image itself here, values being immutable. *)
Definition apply_subtitle_group (B : Backend) (self : SubtitleService)
    (subtitle_group : SubtitleGroup) : exn + Image :=
  let image_id := image_id subtitle_group in
  let subtitle_list := subtitle_list subtitle_group in
  let image_path :=
    os_path_join B (input_image_directory (subtitle_model self)) image_id in
  match Image_open B image_path with
  | None => inl OSError_image
  | Some image => apply_subtitles B image subtitle_list
  end.

(** ** The batch driver [SubtitleService.add_subtitles] *)

(** A Python [dict] with string keys is the list of its items in
    insertion order, keys distinct; iterating over [d.keys()] and looking
    each key up is iterating over the items. *)
Definition dict (V : Type) : Type := list (string * V).

(** [d.get(k)], and [k in d.keys()] when only asked whether it is there. *)
Fixpoint dict_get {V : Type} (d : dict V) (k : string) : option V :=
  match d with
  | [] => None
  | (k', v) :: d' => if (k' =? k)%string then Some v else dict_get d' k
  end.

(** The files and directories the driver reads and writes.  A saved
    image is read back as it was saved. *)
Record World : Type := mkWorld {
  files : string -> option Image;
  directories : string -> bool }.

(** [os.path.exists(path)] *)
Definition path_exists (w : World) (path : string) : bool :=
  directories w path || match files w path with Some _ => true | None => false end.

(** [image.save(path)] *)
Definition save (w : World) (path : string) (image : Image) : World :=
  mkWorld (fun p => if (p =? path)%string then Some image else files w p)
          (directories w).

(** The rest of [os] and of the repository that the driver calls:
    [os.path.basename], [os.path.splitext], the directories after
    [os.makedirs(path)], and [validate_subtitle_group], which returns or
    raises (here: with a message). *)
Record Os : Type := mkOs {
  basename : string -> string;
  splitext : string -> string * string;
  makedirs : (string -> bool) -> string -> string -> bool;
  validate_subtitle_group : SubtitleGroup -> option string }.

(** What [add_subtitles] reads of its data access object besides the
    input directory: the output directory and the results of
    [get_subtitle_groups()] and [get_image_paths()]. *)
Record DataAccess : Type := mkDataAccess {
  model : SubtitleDataAccessService;
  output_directory : string;
  get_subtitle_groups : dict (dict SubtitleGroup);
  get_image_paths : list string }.

Inductive batch_exn : Type :=
| Invalid (message : string)   (* raised by validate_subtitle_group *)
| Failed (e : exn)             (* raised by apply_subtitle_group *)
| OSError_copy.                (* Image.open(image_path) fails *)

(** Pillow reading from the files as they are now. *)
Definition on_world (B : Backend) (w : World) : Backend :=
  mkBackend (os_path_join B) (files w) (truetype B) (draw_text B) (GaussianBlur B).

(** Lines 148-150, inner loop. *)
Fixpoint validate_images (os : Os) (by_image : dict SubtitleGroup) : option string :=
  match by_image with
  | [] => None
  | (image_id, subtitle_group) :: rest =>
      match validate_subtitle_group os subtitle_group with
      | Some message => Some message
      | None => validate_images os rest
      end
  end.

(** Lines 148-150, outer loop. *)
Fixpoint validate_texts (os : Os) (subtitle_groups : dict (dict SubtitleGroup))
  : option string :=
  match subtitle_groups with
  | [] => None
  | (text_id, by_image) :: rest =>
      match validate_images os by_image with
      | Some message => Some message
      | None => validate_texts os rest
      end
  end.

(** Lines 164-173: [for i, image_path in enumerate(image_paths)]. *)
Fixpoint process_images (B : Backend) (os : Os) (self : SubtitleService)
    (subtitle_group_by_text_id : dict SubtitleGroup)
    (output_directory_by_text_id : string)
    (w : World) (image_paths : list string) : option batch_exn * World :=
  match image_paths with
  | [] => (None, w)
  | image_path :: rest =>
      let image_id := basename os image_path in
      let output_image_path := os_path_join B output_directory_by_text_id image_id in
      match dict_get subtitle_group_by_text_id image_id with
      | Some subtitle_group =>
          match apply_subtitle_group (on_world B w) self subtitle_group with
          | inl e => (Some (Failed e), w)
          | inr processed_image =>
              process_images B os self subtitle_group_by_text_id
                output_directory_by_text_id
                (save w output_image_path processed_image) rest
          end
      | None =>
          match files w image_path with
          | None => (Some OSError_copy, w)
          | Some image =>
              process_images B os self subtitle_group_by_text_id
                output_directory_by_text_id
                (save w output_image_path image) rest
          end
      end
  end.

(** Lines 158-160. *)
Definition output_directory_of (B : Backend) (os : Os) (da : DataAccess)
    (text_id : string) : string :=
  os_path_join B (output_directory da) (fst (splitext os (basename os text_id))).

(** Lines 155-173: [for text_id in subtitle_groups.keys()]. *)
Fixpoint process_texts (B : Backend) (os : Os) (da : DataAccess)
    (w : World) (subtitle_groups : dict (dict SubtitleGroup))
  : option batch_exn * World :=
  match subtitle_groups with
  | [] => (None, w)
  | (text_id, subtitle_group_by_text_id) :: rest =>
      let output_directory_by_text_id := output_directory_of B os da text_id in
      let w :=
        if path_exists w output_directory_by_text_id then w
        else mkWorld (files w) (makedirs os (directories w) output_directory_by_text_id) in
      match process_images B os (mkService (model da)) subtitle_group_by_text_id
              output_directory_by_text_id w (get_image_paths da) with
      | (Some e, w) => (Some e, w)
      | (None, w) => process_texts B os da w rest
      end
  end.

(** [SubtitleService.add_subtitles]: the exception, if any, and the files
    and directories as the call leaves them. *)
Definition add_subtitles (B : Backend) (os : Os) (da : DataAccess) (w : World)
  : option batch_exn * World :=
  let subtitle_groups := get_subtitle_groups da in
  match validate_texts os subtitle_groups with
  | Some message => (Some (Invalid message), w)
  | None => process_texts B os da w subtitle_groups
  end.

(** ** Vocabulary of the statements *)

(** A canvas after a sequence of pastes, first paste first. *)
Definition composite (base : Image) (pasted : list Image) : Image :=
  fold_left (fun c layer => paste c layer layer) pasted base.

(** The successive states of the line loop, one per completed pass. *)
Fixpoint passes (B : Backend) (font : Font) (subtitle_profile : SubtitleProfile)
    (image_width image_height text_height num_lines sum_text_height : Z)
    (st : layers) (i : Z) (lines : list text) : list layers :=
  match lines with
  | [] => []
  | line :: rest =>
      match line_pos font (textbox_data subtitle_profile) image_width image_height
              text_height num_lines sum_text_height i line with
      | inl _ => []
      | inr xy =>
          let st' := draw_line B font subtitle_profile st xy line in
          st' :: passes B font subtitle_profile image_width image_height text_height
                   num_lines sum_text_height st' (i + 1) rest
      end
  end.

(** The background image, when one is configured and can be opened. *)
Definition background_pastes (B : Backend) (subtitle_profile : SubtitleProfile)
  : list Image :=
  match background_image_path subtitle_profile with
  | Some path => match Image_open B path with Some bg => [bg] | None => [] end
  | None => []
  end.

(** An outline layer as it is pasted, when that outline is configured. *)
Definition outline_pastes (B : Backend) (o : option OutlineData.t) (layer : Image)
  : list Image :=
  match o with
  | Some o => [blurred B o layer]
  | None => []
  end.

Definition to_sum (o : outcome) : exn + Image :=
  match o with
  | Returned image => inr image
  | Raised e _ => inl e
  end.

(** Text whose only whitespace is the plain space. *)
Definition plain_spaces (s : text) : Prop :=
  Forall (fun c => in_whitespace c = true -> c = space) s.

(** Text made of [string.whitespace] characters only. *)
Definition whitespace_only (s : text) : Prop := forallb in_whitespace s = true.

(** All four images of the loop have the size of the canvas. *)
Definition sized (sz : Z * Z) (st : layers) : Prop :=
  size (canvas st) = sz /\ size (text_layer st) = sz
  /\ size (outline_1_layer st) = sz /\ size (outline_2_layer st) = sz.

(** The states of the line loop of one application, given what the
    analysis of the text produced. *)
Definition line_passes (B : Backend) (image : Image) (subtitle : Subtitle)
    (wrapped_text : list text) (font : Font) (text_height : Z) : list layers :=
  let blank := Image_new (size image) transparent_white in
  passes B font (subtitle_profile subtitle) (fst (size image)) (snd (size image))
    text_height (len wrapped_text) (len wrapped_text * text_height)
    (mkLayers (composite image (background_pastes B (subtitle_profile subtitle)))
       blank blank blank)
    0 wrapped_text.

(** The paths [add_subtitles] saves to, in the order of the saves. *)
Definition output_paths_of (B : Backend) (os : Os) (output_directory_by_text_id : string)
    (image_paths : list string) : list string :=
  map (fun image_path =>
         os_path_join B output_directory_by_text_id (basename os image_path))
      image_paths.

Definition output_paths (B : Backend) (os : Os) (da : DataAccess) : list string :=
  flat_map (fun item => output_paths_of B os (output_directory_of B os da (fst item))
                          (get_image_paths da))
           (get_subtitle_groups da).

(** [s] cut into pieces of [n] characters, the last one possibly shorter. *)
Fixpoint chop (fuel n : nat) (s : text) : list text :=
  match fuel, s with
  | S fuel', _ :: _ => firstn n s :: chop fuel' n (skipn n s)
  | _, _ => []
  end.

(** Text without whitespace (in the sense of [str.isspace]) and without
    hyphens. *)
Definition solid (s : text) : Prop :=
  Forall (fun c => isspace c = false /\ is_hyphen c = false) s.

(** ** A small concrete backend

    A fixed-pitch font (every character advances 20 pixels, the ink of a
    line is 2 pixels narrower than its advance and 16 pixels high, the
    descent is 4), a rasteriser that fills the advance box of the line
    and, around it, the stroke, and a blur that leaves the layer as it
    is.  Used to run the program on concrete inputs. *)

Module Demo.

Definition mono : Font :=
  mkFont (16, 4)
    (fun t => if strip_is_empty t then None else Some (0, 0, 20 * len t - 2, 16))
    (fun t => inject_Z (20 * len t)).

Definition in_box (x0 y0 w h x y : Z) : bool :=
  (x0 <=? x) && (x <? x0 + w) && (y0 <=? y) && (y <? y0 + h).

Definition box_text (layer : Image) (xy : Q * Q) (line : text) (font : Font)
    (fill : Color) (stroke_width : Z) (stroke_fill : option Color) : raster :=
  fun x y =>
    let x0 := Qfloor (fst xy) in
    let y0 := Qfloor (snd xy) in
    let w := Qfloor (getlength font line) in
    if in_box x0 y0 w 16 x y then fill
    else if in_box (x0 - stroke_width) (y0 - stroke_width)
              (w + 2 * stroke_width) (16 + 2 * stroke_width) x y
    then match stroke_fill with Some c => c | None => fill end
    else getpixel layer x y.

Definition black : Color := RGBA x00 x00 x00 xff.
Definition red_ : Color := RGBA xff x00 x00 xff.
Definition green_ : Color := RGBA x00 xff x00 xff.
Definition blue_ : Color := RGBA x00 x00 xff xff.
Definition clear : Color := RGBA x00 x00 x00 x00.

Definition backdrop : Image := Image_new (200, 100) red_.

Definition base : Image := Image_new (200, 100) clear.

Definition pil : Backend :=
  mkBackend
    (fun directory name => (directory ++ "/" ++ name)%string)
    (fun path =>
       if (path =? "backdrop.png")%string then Some backdrop
       else if (path =? "input/0001.png")%string then Some base
       else None)
    (fun style size => if (style =? "mono.ttf")%string then Some mono else None)
    box_text
    (fun _ layer => getpixel layer).

Definition service : SubtitleService := mkService (mkModel "input").

Definition textbox (alignment push : string) : TextboxData.t :=
  TextboxData.mk alignment (0, 0)%Q 40 push.

Definition profile (style alignment push : string) (o1 o2 : option OutlineData.t)
    (bg : option string) : SubtitleProfile :=
  mkProfile (FontData.mk style black 20 None None) o1 o2 (textbox alignment push) bg.

(** The end-to-end scenario of the specification. *)
Definition hello : Subtitle :=
  mkSubtitle (profile "mono.ttf" "center" "up" None None None) [str "HELLO"].

(** Three lines. *)
Definition three : Subtitle :=
  mkSubtitle (profile "mono.ttf" "center" "up" None None None)
    [str "ONE"; str "TWO"; str "SIX"].

(** The same line with both outlines over a background image. *)
Definition outlined : Subtitle :=
  mkSubtitle
    (profile "mono.ttf" "center" "up"
       (Some (OutlineData.mk green_ 2 None))
       (Some (OutlineData.mk blue_ 4 (Some 0%Q)))
       (Some "backdrop.png"%string))
    [str "HELLO"].

(** The same line in red. *)
Definition hello_red : Subtitle :=
  mkSubtitle
    (mkProfile (FontData.mk "mono.ttf" red_ 20 None None) None None
       (textbox "center" "up") None)
    [str "HELLO"].

Definition pair : SubtitleGroup := mkGroup "0001.png" [hello; hello_red].


(** An alignment that does not exist, over a background image. *)
Definition justified : Subtitle :=
  mkSubtitle (profile "mono.ttf" "justify" "up" None None (Some "backdrop.png"%string))
    [str "HELLO"].






(** A background image that does not exist. *)
Definition no_backdrop : Subtitle :=
  mkSubtitle (profile "missing.ttf" "justify" "up" None None (Some "nowhere.png"%string))
    [str "HELLO"].

(** The calls of [os] on the paths of the demonstration, a validation
    that asks for at least one subtitle, and a run on two input images
    of which the first has subtitles. *)
Definition os : Os :=
  mkOs
    (fun path =>
       if path =? "input/0001.png" then "0001.png"
       else if path =? "input/0002.png" then "0002.png"
       else if path =? "texts/draft.txt" then "draft.txt"
       else path)%string
    (fun name => if name =? "draft.txt" then ("draft", ".txt") else (name, ""))%string
    (fun directories path p => (p =? path)%string || directories p)
    (fun group =>
       match subtitle_list group with
       | [] => Some "no subtitles"%string
       | _ :: _ => None
       end).

Definition plain : Image := Image_new (200, 100) green_.

Definition world : World :=
  mkWorld
    (fun path =>
       if (path =? "input/0001.png")%string then Some base
       else if (path =? "input/0002.png")%string then Some plain
       else None)
    (fun _ => false).

Definition data (groups : dict (dict SubtitleGroup)) : DataAccess :=
  mkDataAccess (mkModel "input") "output" groups ["input/0001.png"; "input/0002.png"]%string.

Definition draft : DataAccess :=
  data [("texts/draft.txt", [("0001.png", pair)])]%string.

Definition empty_group : DataAccess :=
  data [("texts/draft.txt", [("0001.png", pair); ("0002.png", mkGroup "0002.png" [])])]%string.

End Demo.

(** * Properties of the text wrapper *)

Lemma match_len_pos (before s : text) : s <> [] -> (1 <= match_len before s)%nat.
Proof.
  destruct s as [|c s']; [congruence|intros _].
  unfold match_len.
  destruct (in_whitespace c) eqn:Hc.
  - simpl. rewrite Hc. lia.
  - destruct (behind_word_punct before && (2 <=? dashes_then_word (c :: s'))%nat) eqn:Hd.
    + apply andb_prop in Hd. destruct Hd as [_ Hd]. apply Nat.leb_le in Hd. lia.
    + lia.
Qed.

Lemma split_from_concat (fuel : nat) :
  forall before s, (length s <= fuel)%nat -> concat (split_from fuel before s) = s.
Proof.
  induction fuel as [|fuel IH]; intros before s Hlen.
  - destruct s; [reflexivity|simpl in Hlen; lia].
  - destruct s as [|c s']; [reflexivity|].
    cbn [split_from concat].
    pose proof (match_len_pos before (c :: s') ltac:(discriminate)) as Hpos.
    set (n := match_len before (c :: s')) in *.
    rewrite IH.
    + apply firstn_skipn.
    + rewrite length_skipn. lia.
Qed.

Lemma concat_filter_nonempty (l : list text) : concat (filter nonempty l) = concat l.
Proof.
  induction l as [|c l IH]; [reflexivity|].
  destruct c; simpl; [exact IH|now rewrite IH].
Qed.

Lemma _split_concat (s : text) : concat (_split s) = s.
Proof.
  unfold _split. rewrite concat_filter_nonempty. now apply split_from_concat.
Qed.

Lemma _split_nonempty (s : text) : Forall (fun c => c <> []) (_split s).
Proof.
  unfold _split. apply Forall_forall. intros c Hc.
  apply filter_In in Hc. destruct Hc as [_ Hc]. now destruct c.
Qed.

Lemma len_app {A} (a b : list A) : len (a ++ b) = len a + len b.
Proof. unfold len. rewrite length_app. lia. Qed.

Lemma len_nonneg {A} (a : list A) : 0 <= len a.
Proof. unfold len. lia. Qed.

Lemma fill_line_all (width : Z) (chunks : list text) :
  forall cur_line cur_len,
    cur_len + len (concat chunks) <= width ->
    fill_line width chunks cur_line cur_len
    = ([], cur_line ++ chunks, cur_len + len (concat chunks)).
Proof.
  induction chunks as [|c rest IH]; intros cur_line cur_len Hfit; simpl.
  - now rewrite app_nil_r, Z.add_0_r.
  - simpl in Hfit. rewrite len_app in Hfit.
    pose proof (len_nonneg (concat rest)).
    replace (cur_len + len c <=? width) with true by (symmetry; apply Z.leb_le; lia).
    rewrite IH by lia. rewrite <- app_assoc, len_app. simpl. f_equal. lia.
Qed.

Lemma last_app_r {A} (a b : list A) (d : A) : b <> [] -> last (a ++ b) d = last b d.
Proof.
  intros Hb. induction a as [|x a IH]; [reflexivity|].
  simpl. rewrite IH. destruct (a ++ b) eqn:E; [|reflexivity].
  apply app_eq_nil in E. destruct E. congruence.
Qed.

Lemma last_concat (chunks : list text) (d : ascii) :
  chunks <> [] -> Forall (fun c => c <> []) chunks ->
  last (concat chunks) d = last (last chunks []) d.
Proof.
  induction chunks as [|c rest IH]; [congruence|intros _ Hall].
  inversion Hall as [|? ? Hc Hrest]; subst.
  destruct rest as [|c' rest'].
  - simpl. now rewrite app_nil_r.
  - change (concat (c :: c' :: rest')) with (c ++ concat (c' :: rest')).
    rewrite last_app_r.
    + rewrite IH by (auto; discriminate). reflexivity.
    + inversion Hrest; subst. destruct c'; [congruence|discriminate].
Qed.

Lemma last_chunk_nonempty (chunks : list text) :
  chunks <> [] -> Forall (fun c => c <> []) chunks -> last chunks [] <> [].
Proof.
  intros Hne Hall. destruct (exists_last Hne) as [l' [c ->]]. rewrite last_last.
  apply Forall_app in Hall. destruct Hall as [_ Hc]. now inversion Hc.
Qed.

Lemma strip_is_empty_last (s : text) (d : ascii) :
  s <> [] -> isspace (last s d) = false -> strip_is_empty s = false.
Proof.
  intros Hne Hlast. unfold strip_is_empty.
  destruct (forallb isspace s) eqn:Hall; [|reflexivity].
  rewrite forallb_forall in Hall.
  rewrite Hall in Hlast; [discriminate|].
  destruct (exists_last Hne) as [s' [c ->]]. rewrite last_last.
  apply in_or_app. right. now left.
Qed.

Lemma expandtabs_from_plain (tabsize col : nat) (s : text) :
  plain_spaces s -> expandtabs_from tabsize col s = s.
Proof.
  intros Hs. revert col. induction Hs as [|c s Hc Hs IH]; intros col; [reflexivity|].
  simpl. destruct (code c =? 9)%N eqn:Htab.
  - assert (in_whitespace c = true) as Hw.
    { unfold in_whitespace, between. apply N.eqb_eq in Htab. rewrite Htab. reflexivity. }
    specialize (Hc Hw). subst c. discriminate.
  - now rewrite IH.
Qed.

Lemma translate_whitespace_plain (s : text) :
  plain_spaces s -> translate_whitespace s = s.
Proof.
  intros Hs. induction Hs as [|c s Hc Hs IH]; [reflexivity|].
  simpl. rewrite IH. destruct (in_whitespace c); [now rewrite Hc|reflexivity].
Qed.

Lemma _munge_whitespace_plain (s : text) : plain_spaces s -> _munge_whitespace s = s.
Proof.
  intros Hs. unfold _munge_whitespace, expandtabs.
  rewrite expandtabs_from_plain by assumption. now apply translate_whitespace_plain.
Qed.

Lemma mapM_app {A B} (f : A -> exn + B) (xs ys : list A) :
  mapM f (xs ++ ys)
  = (a <- mapM f xs ;; b <- mapM f ys ;; inr (a ++ b)).
Proof.
  induction xs as [|x xs IH]; simpl.
  - destruct (mapM f ys); reflexivity.
  - destruct (f x); simpl; [reflexivity|].
    rewrite IH. destruct (mapM f xs); simpl; [reflexivity|].
    destruct (mapM f ys); reflexivity.
Qed.

Lemma wrap_step_one_line (width : Z) (chunks : list text) :
  chunks <> [] -> Forall (fun c => c <> []) chunks ->
  len (concat chunks) <= width ->
  isspace (last (concat chunks) space) = false ->
  wrap_step width chunks [] = ([], [concat chunks]).
Proof.
  intros Hne Hall Hfit Hend. unfold wrap_step.
  replace (match chunks with
           | top :: below => if strip_is_empty top && nonempty (@nil text) then below else chunks
           | [] => chunks
           end) with chunks
    by (destruct chunks; [reflexivity|cbn [nonempty]; now rewrite andb_false_r]).
  rewrite fill_line_all by lia. cbn [app].
  assert (nonempty chunks = true) as Hn by (destruct chunks; [congruence|reflexivity]).
  rewrite Hn. cbn [andb].
  rewrite (strip_is_empty_last _ space).
  - now rewrite Hn.
  - now apply last_chunk_nonempty.
  - now rewrite <- last_concat.
Qed.

(** *** The chunk loop terminates within its fuel *)

Lemma fill_line_weight (width : Z) (chunks : list text) :
  forall cur_line cur_len rest cl clen,
    fill_line width chunks cur_line cur_len = (rest, cl, clen) ->
    (weight rest <= weight chunks)%nat
    /\ (weight rest = weight chunks ->
        rest = chunks /\ clen = cur_len
        /\ forall c r, chunks = c :: r -> width < cur_len + len c).
Proof.
  induction chunks as [|c chunks IH]; intros cur_line cur_len rest cl clen Hfill;
    simpl in Hfill.
  - inversion Hfill; subst. repeat split; auto. intros; discriminate.
  - destruct (cur_len + len c <=? width) eqn:Hfit.
    + apply IH in Hfill. destruct Hfill as [Hle _]. simpl. split; [lia|intros; lia].
    + inversion Hfill; subst. apply Z.leb_gt in Hfit.
      repeat split; auto. intros c' r E. inversion E; subst. lia.
Qed.

Lemma clip_nonneg (s : text) (e : Z) : 0 <= e -> clip s e = Z.to_nat e.
Proof.
  intros He. unfold clip.
  replace (e <? 0) with false by (symmetry; apply Z.ltb_ge; lia). reflexivity.
Qed.

Lemma _handle_long_word_weight (width cur_len : Z) (c : text) (r cur_line : list text) :
  width < len c ->
  (weight (fst (_handle_long_word (c :: r) cur_line cur_len width)) <= weight (c :: r))%nat
  /\ (0 < width -> cur_len = 0 ->
      (weight (fst (_handle_long_word (c :: r) cur_line cur_len width)) < weight (c :: r))%nat).
Proof.
  intros Hlong. unfold _handle_long_word. cbn [fst weight fold_right].
  set (space_left := if width <? 1 then 1 else width - cur_len).
  set (end_ := if space_left <? len c then _ else space_left).
  unfold slice_from. rewrite length_skipn. split; [lia|].
  intros Hw Hcur.
  assert (space_left = width) as Hsl.
  { unfold space_left. replace (width <? 1) with false by (symmetry; apply Z.ltb_ge; lia). lia. }
  assert (1 <= end_) as Hend.
  { unfold end_. destruct (space_left <? len c); [|lia].
    match goal with |- 1 <= (if ?b then _ else _) => destruct b eqn:Hb end; [|lia].
    apply andb_prop in Hb. destruct Hb as [Hb _]. apply Z.ltb_lt in Hb. lia. }
  rewrite clip_nonneg by lia.
  unfold len in Hlong. lia.
Qed.

Lemma wrap_step_weight (width : Z) (chunks lines : list text) :
  0 < width -> chunks <> [] ->
  (weight (fst (wrap_step width chunks lines)) < weight chunks)%nat.
Proof.
  intros Hw Hne. destruct chunks as [|top below]; [congruence|clear Hne].
  unfold wrap_step.
  set (chunks1 := if strip_is_empty top && nonempty lines then below else top :: below).
  assert ((weight chunks1 <= weight (top :: below))%nat
          /\ (weight chunks1 = weight (top :: below) -> chunks1 = top :: below))
    as [Hle1 Heq1].
  { unfold chunks1. destruct (strip_is_empty top && nonempty lines); simpl; split; auto; lia. }
  destruct (fill_line width chunks1 [] 0) as [[chunks2 cur_line] cur_len] eqn:Hfill.
  apply fill_line_weight in Hfill. destruct Hfill as [Hle2 Heq2].
  destruct chunks2 as [|c r].
  - cbn [fst]. simpl in *. lia.
  - destruct (width <? len c) eqn:Hlong.
    + apply Z.ltb_lt in Hlong.
      pose proof (_handle_long_word_weight width cur_len c r cur_line Hlong) as [Hle3 Hlt3].
      destruct (_handle_long_word (c :: r) cur_line cur_len width) as [chunks3 cur_line3].
      cbn [fst] in *.
      destruct (Nat.eq_dec (weight (c :: r)) (weight chunks1)) as [E|E].
      * destruct (Heq2 E) as [_ [Hcur _]]. specialize (Hlt3 Hw Hcur). lia.
      * lia.
    + cbn [fst].
      destruct (Nat.eq_dec (weight (c :: r)) (weight chunks1)) as [E|E]; [|lia].
      destruct (Heq2 E) as [Hsame [_ Hnofit]].
      specialize (Hnofit c r (eq_sym Hsame)). apply Z.ltb_ge in Hlong. lia.
Qed.

Lemma wrap_loop_total (width : Z) (fuel : nat) :
  forall chunks lines,
    0 < width -> (weight chunks < fuel)%nat ->
    exists result, wrap_loop fuel width chunks lines = Some result.
Proof.
  induction fuel as [|fuel IH]; intros chunks lines Hw Hfuel; [lia|].
  destruct chunks as [|top below]; [now exists lines|].
  cbn [wrap_loop].
  pose proof (wrap_step_weight width (top :: below) lines Hw ltac:(discriminate)) as Hdec.
  destruct (wrap_step width (top :: below) lines) as [chunks' lines'].
  cbn [fst] in Hdec. apply IH; [assumption|lia].
Qed.

(** Hence [_wrap_chunks] never falls back on its out-of-fuel branch. *)
Lemma _wrap_chunks_result (width : Z) (chunks : list text) :
  0 < width ->
  exists lines, wrap_loop (S (weight chunks)) width chunks [] = Some lines
                /\ _wrap_chunks width chunks = inr lines.
Proof.
  intros Hw.
  destruct (wrap_loop_total width (S (weight chunks)) chunks [] Hw ltac:(lia)) as [r Hr].
  exists r. split; [assumption|]. unfold _wrap_chunks.
  replace (width <=? 0) with false by (symmetry; apply Z.leb_gt; lia).
  now rewrite Hr.
Qed.

(** *** Blank lines *)

Lemma isspace_not_hyphen (c : ascii) : isspace c = true -> is_hyphen c = false.
Proof.
  unfold isspace, is_hyphen, between. intros H.
  destruct (code c =? 45)%N eqn:E; [|reflexivity].
  apply N.eqb_eq in E. rewrite E in H. discriminate.
Qed.

Lemma rfind_from_blank (s : text) :
  strip_is_empty s = true -> forall i, rfind_from i s = -1.
Proof.
  unfold strip_is_empty. induction s as [|c s IH]; intros Hs i; [reflexivity|].
  simpl in Hs. apply andb_prop in Hs. destruct Hs as [Hc Hs].
  simpl. rewrite IH by assumption. simpl. now rewrite isspace_not_hyphen.
Qed.

Lemma strip_is_empty_split (n : nat) (s : text) :
  strip_is_empty s = strip_is_empty (firstn n s) && strip_is_empty (skipn n s).
Proof.
  unfold strip_is_empty. rewrite <- forallb_app. now rewrite firstn_skipn.
Qed.

Lemma strip_is_empty_firstn (n : nat) (s : text) :
  strip_is_empty s = true -> strip_is_empty (firstn n s) = true.
Proof.
  rewrite (strip_is_empty_split n s). intros H. now apply andb_prop in H.
Qed.

Lemma strip_is_empty_skipn (n : nat) (s : text) :
  strip_is_empty s = true -> strip_is_empty (skipn n s) = true.
Proof.
  rewrite (strip_is_empty_split n s). intros H. now apply andb_prop in H.
Qed.

(** A lone chunk of whitespace never becomes a line. *)
Lemma wrap_step_blank (width : Z) (c : text) (lines : list text) :
  0 < width -> strip_is_empty c = true ->
  exists chunks',
    wrap_step width [c] lines = (chunks', lines)
    /\ (chunks' = []
        \/ exists c', chunks' = [c'] /\ strip_is_empty c' = true
                      /\ (length c' < length c)%nat).
Proof.
  intros Hw Hc. unfold wrap_step. rewrite Hc. cbn [andb].
  destruct (nonempty lines) eqn:Hlines.
  - exists []. split; [reflexivity|now left].
  - cbn [fill_line]. rewrite Z.add_0_l.
    destruct (len c <=? width) eqn:Hfit.
    + exists []. cbn [app last nonempty andb]. rewrite Hc. cbn. split; [reflexivity|now left].
    + apply Z.leb_gt in Hfit.
      replace (width <? len c) with true by (symmetry; apply Z.ltb_lt; lia).
      unfold _handle_long_word.
      replace (width <? 1) with false by (symmetry; apply Z.ltb_ge; lia).
      rewrite Z.sub_0_r.
      replace (width <? len c) with true by (symmetry; apply Z.ltb_lt; lia).
      unfold rfind_hyphen.
      rewrite rfind_from_blank by (apply strip_is_empty_firstn; assumption).
      cbn [Z.ltb Z.compare andb app last nonempty].
      unfold slice_to, slice_from. rewrite clip_nonneg by lia.
      rewrite strip_is_empty_firstn by assumption. cbn.
      eexists. split; [reflexivity|right].
      eexists. split; [reflexivity|]. split.
      * now apply strip_is_empty_skipn.
      * rewrite length_skipn. unfold len in Hfit. lia.
Qed.

Lemma wrap_loop_blank (width : Z) (fuel : nat) :
  forall c lines,
    0 < width -> strip_is_empty c = true -> (length c < fuel)%nat ->
    wrap_loop fuel width [c] lines = Some lines.
Proof.
  induction fuel as [|fuel IH]; intros c lines Hw Hc Hfuel; [lia|].
  cbn [wrap_loop].
  destruct (wrap_step_blank width c lines Hw Hc) as [chunks' [Hstep Hnext]].
  rewrite Hstep. destruct Hnext as [->|[c' [-> [Hc' Hlen]]]].
  - now destruct fuel.
  - apply IH; [assumption|assumption|lia].
Qed.

Lemma expandtabs_from_whitespace (tabsize : nat) (s : text) :
  whitespace_only s -> forall col, whitespace_only (expandtabs_from tabsize col s).
Proof.
  unfold whitespace_only. induction s as [|c s IH]; intros Hs col; [reflexivity|].
  simpl in Hs. apply andb_prop in Hs. destruct Hs as [Hc Hs]. simpl.
  destruct (code c =? 9)%N.
  - destruct tabsize as [|t]; [now apply IH|].
    rewrite forallb_app. rewrite IH by assumption. rewrite andb_true_r.
    apply forallb_forall. intros x Hx. apply repeat_spec in Hx. now subst x.
  - simpl. rewrite Hc. now apply IH.
Qed.

Lemma translate_whitespace_only (s : text) :
  whitespace_only s -> translate_whitespace s = repeat space (length s).
Proof.
  unfold whitespace_only. induction s as [|c s IH]; intros Hs; [reflexivity|].
  simpl in Hs. apply andb_prop in Hs. destruct Hs as [Hc Hs].
  simpl. rewrite Hc. now rewrite IH.
Qed.

Lemma span_len_repeat_space (n : nat) :
  span_len in_whitespace (repeat space n) = n.
Proof. induction n as [|n IH]; [reflexivity|]. simpl. now rewrite IH. Qed.

Lemma _split_spaces (n : nat) :
  _split (repeat space n) = match n with O => [] | S _ => [repeat space n] end.
Proof.
  destruct n as [|n]; [reflexivity|].
  unfold _split. rewrite repeat_length.
  change (repeat space (S n)) with (space :: repeat space n) at 1.
  cbn [split_from].
  assert (match_len [] (space :: repeat space n) = S n) as Hm.
  { change (space :: repeat space n) with (repeat space (S n)).
    unfold match_len. cbn [repeat]. cbn [in_whitespace].
    change (in_whitespace space) with true. cbn iota.
    change (space :: repeat space n) with (repeat space (S n)).
    apply span_len_repeat_space. }
  rewrite Hm.
  change (space :: repeat space n) with (repeat space (S n)).
  rewrite firstn_all2 by (rewrite repeat_length; lia).
  rewrite skipn_all2 by (rewrite repeat_length; lia).
  replace (split_from n (rev (repeat space (S n)) ++ []) []) with (@nil text)
    by (now destruct n).
  reflexivity.
Qed.

Lemma strip_is_empty_spaces (n : nat) : strip_is_empty (repeat space n) = true.
Proof. induction n as [|n IH]; [reflexivity|exact IH]. Qed.

Lemma wrap_whitespace_only (line : text) (width : Z) :
  0 < width -> whitespace_only line -> wrap line width = inr [].
Proof.
  intros Hw Hline. unfold wrap, _split_chunks, _munge_whitespace, expandtabs.
  rewrite translate_whitespace_only by (now apply expandtabs_from_whitespace).
  rewrite _split_spaces. unfold _wrap_chunks.
  replace (width <=? 0) with false by (symmetry; apply Z.leb_gt; lia).
  destruct (length (expandtabs_from 8 0 line)) as [|n]; [reflexivity|].
  rewrite wrap_loop_blank; [reflexivity|assumption|apply strip_is_empty_spaces|].
  simpl. rewrite repeat_length. lia.
Qed.

(** * Properties of the paste *)

Lemma Z_of_u8_range (b : u8) : 0 <= Z_of_u8 b <= 255.
Proof. unfold Z_of_u8. pose proof (Byte.to_N_bounded b). lia. Qed.

Lemma u8_of_Z_of_u8 (b : u8) : u8_of_Z (Z_of_u8 b) = b.
Proof.
  unfold u8_of_Z. rewrite Z.mod_small by (pose proof (Z_of_u8_range b); lia).
  unfold Z_of_u8. rewrite N2Z.id. now rewrite Byte.of_to_N.
Qed.

Lemma DIV255_scaled (s : Z) : 0 <= s <= 255 -> DIV255 (s * 255) = s.
Proof.
  intros Hs. unfold DIV255. rewrite !Z.shiftr_div_pow2 by lia.
  change (2 ^ 8) with 256.
  assert (s * 255 + 128 = (s - 1) * 256 + (384 - s)) as E by lia.
  destruct (Z_le_gt_dec s 128) as [Hlow|Hhigh].
  - assert ((s * 255 + 128) / 256 = s) as ->.
    { symmetry. apply (Z.div_unique _ _ _ (128 - s)); lia. }
    symmetry. apply (Z.div_unique _ _ _ 128); lia.
  - assert ((s * 255 + 128) / 256 = s - 1) as ->.
    { symmetry. apply (Z.div_unique _ _ _ (384 - s)); lia. }
    symmetry. apply (Z.div_unique _ _ _ 127); lia.
Qed.

Lemma BLEND_opaque (out inp : u8) : BLEND xff out inp = inp.
Proof.
  unfold BLEND. change (Z_of_u8 xff) with 255.
  rewrite Z.sub_diag, Z.mul_0_r, Z.add_0_l.
  rewrite DIV255_scaled by apply Z_of_u8_range. apply u8_of_Z_of_u8.
Qed.

Lemma BLEND_transparent (out inp : u8) : BLEND x00 out inp = out.
Proof.
  unfold BLEND. change (Z_of_u8 x00) with 0.
  rewrite Z.sub_0_r, Z.mul_0_r, Z.add_0_r.
  rewrite DIV255_scaled by apply Z_of_u8_range. apply u8_of_Z_of_u8.
Qed.

Lemma blend_pixel_opaque (out inp : pixel) : blend_pixel xff out inp = inp.
Proof. unfold blend_pixel. rewrite !BLEND_opaque. now destruct inp. Qed.

Lemma blend_pixel_transparent (out inp : pixel) : blend_pixel x00 out inp = out.
Proof. unfold blend_pixel. rewrite !BLEND_transparent. now destruct out. Qed.

Lemma size_paste (image im mask : Image) : size (paste image im mask) = size image.
Proof. reflexivity. Qed.

(** Where the pasted layer is opaque its pixel replaces the canvas's. *)
Lemma paste_opaque (image layer : Image) (x y : Z) :
  size layer = size image -> inside (size image) x y = true ->
  alpha (getpixel layer x y) = xff ->
  getpixel (paste image layer layer) x y = getpixel layer x y.
Proof.
  intros Hsize Hin Ha. cbn [paste getpixel]. rewrite Hsize, Hin. cbn [andb].
  rewrite Ha. apply blend_pixel_opaque.
Qed.

(** Where it is fully transparent the canvas shows through unchanged. *)
Lemma paste_transparent (image layer : Image) (x y : Z) :
  alpha (getpixel layer x y) = x00 ->
  getpixel (paste image layer layer) x y = getpixel image x y.
Proof.
  intros Ha. cbn [paste getpixel].
  destruct (inside (size image) x y && inside (size layer) x y); [|reflexivity].
  rewrite Ha. apply blend_pixel_transparent.
Qed.

Lemma size_composite (base : Image) (pasted : list Image) :
  size (composite base pasted) = size base.
Proof.
  revert base. induction pasted as [|l pasted IH]; intros base; [reflexivity|].
  simpl. now rewrite IH.
Qed.

Lemma composite_app (base : Image) (a b : list Image) :
  composite base (a ++ b) = composite (composite base a) b.
Proof. unfold composite. apply fold_left_app. Qed.

(** * Properties of the line loop *)

Lemma last_cons {A} (l : list A) : forall x d, last (x :: l) d = last l x.
Proof.
  induction l as [|y l IH]; intros x d; [reflexivity|].
  change (last (x :: y :: l) d) with (last (y :: l) d). now rewrite !IH.
Qed.

Section LineLoop.

Variable B : Backend.
Variable font : Font.
Variable subtitle_profile : SubtitleProfile.
Variables image_width image_height text_height num_lines sum_text_height : Z.

Local Abbreviation pos :=
  (line_pos font (textbox_data subtitle_profile) image_width image_height
     text_height num_lines sum_text_height).
Local Abbreviation loop :=
  (add_text B font subtitle_profile image_width image_height
     text_height num_lines sum_text_height).
Local Abbreviation history :=
  (passes B font subtitle_profile image_width image_height
     text_height num_lines sum_text_height).

(** Whether the origin can be computed depends on the alignment and the
    push only, not on the line. *)
Lemma line_pos_raises_always (i : Z) (line : text) (e : exn) :
  pos i line = inl e -> forall i' line', pos i' line' = inl e.
Proof.
  unfold line_pos, line_x, line_y.
  destruct (TextboxData.anchor_point (textbox_data subtitle_profile)) as [ax ay].
  intros H i' line'.
  destruct (TextboxData.alignment (textbox_data subtitle_profile) =? "left")%string;
  [|destruct (TextboxData.alignment (textbox_data subtitle_profile) =? "center")%string;
    [|destruct (TextboxData.alignment (textbox_data subtitle_profile) =? "right")%string]];
  cbn [bind] in *; try exact H;
  (destruct (TextboxData.push (textbox_data subtitle_profile) =? "up")%string;
   [|destruct (TextboxData.push (textbox_data subtitle_profile) =? "down")%string]);
  cbn [bind] in *; solve [discriminate H | exact H].
Qed.

Lemma draw_line_sized (sz : Z * Z) (st : layers) (xy : Q * Q) (line : text) :
  sized sz st -> sized sz (draw_line B font subtitle_profile st xy line).
Proof.
  intros [Hc [Ht [H1 H2]]]. unfold sized, draw_line.
  destruct (outline_data_1 subtitle_profile), (outline_data_2 subtitle_profile),
    (FontData.stroke_size (font_data subtitle_profile)); cbn; auto.
Qed.

Lemma draw_line_canvas (st : layers) (xy : Q * Q) (line : text) :
  let st' := draw_line B font subtitle_profile st xy line in
  canvas st' = paste (canvas st) (text_layer st') (text_layer st').
Proof.
  unfold draw_line.
  destruct (FontData.stroke_size (font_data subtitle_profile)); reflexivity.
Qed.

(** The loop raises in its first pass or not at all, hence before any
    layer is drawn on or pasted. *)
Lemma add_text_raised (lines : list text) :
  forall st i e st',
    loop st i lines = (Some e, st') ->
    st' = st /\ exists line rest, lines = line :: rest /\ pos i line = inl e.
Proof.
  induction lines as [|line rest IH]; intros st i e st' Hrun; cbn [add_text] in Hrun.
  - discriminate.
  - destruct (line_pos font (textbox_data subtitle_profile) image_width image_height
                text_height num_lines sum_text_height i line) as [e0|xy] eqn:Hpos.
    + inversion Hrun; subst. split; [reflexivity|]. now exists line, rest.
    + apply IH in Hrun. destruct Hrun as [_ [line' [rest' [_ Hfail]]]].
      pose proof (line_pos_raises_always _ _ _ Hfail i line) as Hnow.
      congruence.
Qed.

(** When the loop completes, the canvas has received the fill layer once
    per line, in line order, each time as it was after that line. *)
Lemma add_text_returned (lines : list text) :
  forall st i st',
    loop st i lines = (None, st') ->
    st' = last (history st i lines) st
    /\ length (history st i lines) = length lines
    /\ canvas st' = composite (canvas st) (map text_layer (history st i lines)).
Proof.
  induction lines as [|line rest IH]; intros st i st' Hrun;
    cbn [add_text passes] in *.
  - inversion Hrun; subst. auto.
  - destruct (line_pos font (textbox_data subtitle_profile) image_width image_height
                text_height num_lines sum_text_height i line) as [e0|xy] eqn:Hpos;
      [discriminate|].
    apply IH in Hrun. destruct Hrun as [Hlast [Hlen Hcanvas]].
    repeat split.
    + rewrite Hlast. now rewrite last_cons.
    + cbn [length]. now rewrite Hlen.
    + rewrite Hcanvas. cbn [map composite fold_left].
      now rewrite draw_line_canvas.
Qed.


Lemma add_text_sized (sz : Z * Z) (lines : list text) :
  forall st i st' r,
    sized sz st -> loop st i lines = (r, st') -> sized sz st'.
Proof.
  induction lines as [|line rest IH]; intros st i st' r Hsz Hrun; cbn [add_text] in Hrun.
  - now inversion Hrun; subst.
  - destruct (line_pos font (textbox_data subtitle_profile) image_width image_height
                text_height num_lines sum_text_height i line) as [e0|xy].
    + now inversion Hrun; subst.
    + eapply IH; [|exact Hrun]. now apply draw_line_sized.
Qed.

(** The layers drawn by the loop do not depend on what is on the canvas:
    two runs from canvases of any content draw the same layers. *)
Lemma add_text_layers_independent (lines : list text) :
  forall st1 st2 i r1 r2 st1' st2',
    text_layer st1 = text_layer st2 ->
    outline_1_layer st1 = outline_1_layer st2 ->
    outline_2_layer st1 = outline_2_layer st2 ->
    loop st1 i lines = (r1, st1') -> loop st2 i lines = (r2, st2') ->
    r1 = r2 /\ text_layer st1' = text_layer st2'
    /\ outline_1_layer st1' = outline_1_layer st2'
    /\ outline_2_layer st1' = outline_2_layer st2'.
Proof.
  induction lines as [|line rest IH]; intros st1 st2 i r1 r2 st1' st2' Ht H1 H2 Hrun1 Hrun2;
    cbn [add_text] in *.
  - inversion Hrun1; inversion Hrun2; subst. auto.
  - destruct (line_pos font (textbox_data subtitle_profile) image_width image_height
                text_height num_lines sum_text_height i line) as [e0|xy].
    + inversion Hrun1; inversion Hrun2; subst. auto.
    + eapply IH; [| | |exact Hrun1|exact Hrun2]; unfold draw_line; cbn;
        rewrite ?Ht, ?H1, ?H2; reflexivity.
Qed.

End LineLoop.

(** * Properties of the final pastes *)

Lemma size_blurred (B : Backend) (o : OutlineData.t) (layer : Image) :
  size (blurred B o layer) = size layer.
Proof.
  unfold blurred. destruct (OutlineData.blur_strength o) as [r|]; [|reflexivity].
  now destruct (Qeq_bool r 0).
Qed.

Lemma apply_paste_composite (B : Backend) (p : SubtitleProfile) (st : layers) :
  apply_paste B p st
  = composite (canvas st)
      (outline_pastes B (outline_data_2 p) (outline_2_layer st)
       ++ outline_pastes B (outline_data_1 p) (outline_1_layer st)
       ++ [text_layer st]).
Proof.
  unfold apply_paste, outline_pastes.
  destruct (outline_data_2 p), (outline_data_1 p); reflexivity.
Qed.

Lemma size_apply_paste (B : Backend) (p : SubtitleProfile) (st : layers) :
  size (apply_paste B p st) = size (canvas st).
Proof. rewrite apply_paste_composite. apply size_composite. Qed.

(** * The line positioner *)


Local Open Scope Q_scope.








Local Close Scope Q_scope.

(** * Properties of one application *)

Lemma open_background_inr (B : Backend) (image image0 : Image) (p : SubtitleProfile) :
  open_background B image p = inr image0 ->
  image0 = composite image (background_pastes B p) /\ size image0 = size image.
Proof.
  unfold open_background, background_pastes.
  destruct (background_image_path p) as [path|].
  - destruct (Image_open B path) as [bg|]; [|discriminate].
    intros E. inversion E. split; reflexivity.
  - intros E. inversion E. split; reflexivity.
Qed.

Lemma open_background_inl (B : Backend) (image : Image) (p : SubtitleProfile) (e : exn) :
  open_background B image p = inl e ->
  e = OSError_background /\ background_pastes B p = [].
Proof.
  unfold open_background, background_pastes.
  destruct (background_image_path p) as [path|]; [|discriminate].
  destruct (Image_open B path) as [bg|]; [discriminate|].
  intros E. inversion E. split; reflexivity.
Qed.

Lemma render_lines_unfold (B : Backend) (image : Image) (subtitle : Subtitle) :
  render_lines B image subtitle
  = match open_background B image (subtitle_profile subtitle) with
    | inl e => inl (e, image)
    | inr image0 =>
        match analyze_text B subtitle with
        | inl e => inl (e, image0)
        | inr (wrapped_text, font, text_height) =>
            let blank := Image_new (size image) transparent_white in
            match add_text B font (subtitle_profile subtitle)
                    (fst (size image)) (snd (size image)) text_height
                    (len wrapped_text) (len wrapped_text * text_height)
                    (mkLayers image0 blank blank blank) 0 wrapped_text with
            | (Some e, st) => inl (e, canvas st)
            | (None, st) => inr st
            end
        end
    end.
Proof.
  unfold render_lines.
  destruct (open_background B image (subtitle_profile subtitle)) as [e|image0] eqn:Hopen;
    [reflexivity|].
  apply open_background_inr in Hopen. destruct Hopen as [_ Hsize]. rewrite Hsize.
  destruct (size image) as [W Ht]. cbn [fst snd].
  destruct (analyze_text B subtitle) as [e|[[wrapped_text font] text_height]];
    reflexivity.
Qed.

Lemma analyze_text_lines (B : Backend) (subtitle : Subtitle)
    (wrapped_text : list text) (font : Font) (text_height : Z) :
  analyze_text B subtitle = inr (wrapped_text, font, text_height) ->
  wrapped (content subtitle)
    (TextboxData.box_width (textbox_data (subtitle_profile subtitle))) = inr wrapped_text
  /\ truetype B (FontData.style (font_data (subtitle_profile subtitle)))
       (FontData.size (font_data (subtitle_profile subtitle))) = Some font
  /\ wrapped_text <> [].
Proof.
  unfold analyze_text.
  destruct (wrapped _ _) as [e|w]; cbn [bind]; [discriminate|].
  destruct (truetype B _ _) as [f|]; cbn [bind]; [|discriminate].
  destruct (mapM _ w) as [e|dims] eqn:Hdims; cbn [bind]; [discriminate|].
  destruct (max_ (map fst dims)) as [e|m] eqn:Hmax; cbn [bind]; [discriminate|].
  destruct (_get_text_dimensions (str "l") f) as [e|d]; cbn [bind]; [discriminate|].
  intros E. inversion E; subst. repeat split.
  intros Hnil. subst wrapped_text. cbn in Hdims. inversion Hdims; subst dims.
  discriminate.
Qed.

(** Every exception leaves the canvas as the caller passed it, but for
    the background image if one was configured and could be opened. *)
Lemma render_lines_raised (B : Backend) (image : Image) (subtitle : Subtitle)
    (e : exn) (c : Image) :
  render_lines B image subtitle = inl (e, c) ->
  c = composite image (background_pastes B (subtitle_profile subtitle)).
Proof.
  rewrite render_lines_unfold.
  destruct (open_background B image (subtitle_profile subtitle)) as [e0|image0] eqn:Hopen.
  - intros E. inversion E; subst.
    apply open_background_inl in Hopen. destruct Hopen as [_ ->]. reflexivity.
  - apply open_background_inr in Hopen. destruct Hopen as [Himage0 _].
    destruct (analyze_text B subtitle) as [e0|[[wrapped_text font] text_height]].
    + intros E. inversion E; subst. reflexivity.
    + cbv zeta.
      destruct (add_text _ _ _ _ _ _ _ _ _ _ _) as [[e0|] st] eqn:Hrun; [|discriminate].
      intros E. inversion E; subst e0 c.
      apply add_text_raised in Hrun. destruct Hrun as [-> _]. exact Himage0.
Qed.

Lemma render_lines_returned (B : Backend) (image : Image) (subtitle : Subtitle)
    (st : layers) :
  render_lines B image subtitle = inr st ->
  exists wrapped_text font text_height,
    analyze_text B subtitle = inr (wrapped_text, font, text_height)
    /\ st = last (line_passes B image subtitle wrapped_text font text_height)
              (mkLayers (composite image (background_pastes B (subtitle_profile subtitle)))
                 (Image_new (size image) transparent_white)
                 (Image_new (size image) transparent_white)
                 (Image_new (size image) transparent_white))
    /\ length (line_passes B image subtitle wrapped_text font text_height)
       = length wrapped_text
    /\ canvas st
       = composite image
           (background_pastes B (subtitle_profile subtitle)
            ++ map text_layer (line_passes B image subtitle wrapped_text font text_height))
    /\ sized (size image) st.
Proof.
  rewrite render_lines_unfold.
  destruct (open_background B image (subtitle_profile subtitle)) as [e0|image0] eqn:Hopen;
    [discriminate|].
  apply open_background_inr in Hopen. destruct Hopen as [Himage0 Hsize].
  destruct (analyze_text B subtitle) as [e0|[[wrapped_text font] text_height]];
    [discriminate|].
  cbv zeta.
  destruct (add_text _ _ _ _ _ _ _ _ _ _ _) as [[e0|] st'] eqn:Hrun; [discriminate|].
  intros E. inversion E; subst st'.
  exists wrapped_text, font, text_height. split; [reflexivity|].
  assert (sized (size image) st) as Hsized.
  { eapply add_text_sized; [|exact Hrun]. repeat split; assumption || reflexivity. }
  apply add_text_returned in Hrun. destruct Hrun as [Hlast [Hlen Hcanvas]].
  unfold line_passes. rewrite <- Himage0.
  split; [assumption|]. split; [assumption|]. split; [|assumption].
  rewrite Hcanvas. cbn [canvas]. rewrite composite_app. now rewrite <- Himage0.
Qed.

Lemma last_map {A C} (f : A -> C) (l : list A) :
  forall d, last (map f l) (f d) = f (last l d).
Proof.
  induction l as [|x l IH]; intros d; [reflexivity|].
  cbn [map]. rewrite !last_cons. apply IH.
Qed.

Lemma last_map_self {A C} (f : A -> C) (l : list A) (d x : A) :
  x = last l d -> last (map f l) (f x) = f x.
Proof.
  intros Hx. destruct l as [|x0 l]; [reflexivity|].
  cbn [map]. rewrite last_cons, last_map. rewrite last_cons in Hx. now rewrite Hx.
Qed.

Lemma paste_opaque_sized (sz : Z * Z) (image layer : Image) (x y : Z) :
  size image = sz -> size layer = sz -> inside sz x y = true ->
  alpha (getpixel layer x y) = xff ->
  getpixel (paste image layer layer) x y = getpixel layer x y.
Proof.
  intros Hi Hl Hin Ha. apply paste_opaque; [congruence|now rewrite Hi|assumption].
Qed.

(** What a pixel of the result shows, from the topmost layer down. *)
Lemma apply_paste_pixels (B : Backend) (p : SubtitleProfile) (st : layers)
    (sz : Z * Z) (x y : Z) :
  sized sz st -> inside sz x y = true ->
  let final := apply_paste B p st in
  let fill := getpixel (text_layer st) x y in
  (alpha fill = xff -> getpixel final x y = fill)
  /\ (alpha fill = x00 ->
      forall o1, outline_data_1 p = Some o1 ->
      let ink1 := getpixel (blurred B o1 (outline_1_layer st)) x y in
      alpha ink1 = xff -> getpixel final x y = ink1)
  /\ (alpha fill = x00 ->
      (forall o1, outline_data_1 p = Some o1 ->
         alpha (getpixel (blurred B o1 (outline_1_layer st)) x y) = x00) ->
      forall o2, outline_data_2 p = Some o2 ->
      let ink2 := getpixel (blurred B o2 (outline_2_layer st)) x y in
      alpha ink2 = xff -> getpixel final x y = ink2).
Proof.
  intros [Hc [Ht [H1 H2]]] Hin. cbv zeta. unfold apply_paste.
  set (under2 := match outline_data_2 p with
                 | Some o =>
                     paste (canvas st) (blurred B o (outline_2_layer st))
                       (blurred B o (outline_2_layer st))
                 | None => canvas st
                 end).
  set (under1 := match outline_data_1 p with
                 | Some o =>
                     paste under2 (blurred B o (outline_1_layer st))
                       (blurred B o (outline_1_layer st))
                 | None => under2
                 end).
  assert (size under2 = sz) as Hu2
    by (unfold under2; destruct (outline_data_2 p); assumption).
  assert (size under1 = sz) as Hu1
    by (unfold under1; destruct (outline_data_1 p); assumption).
  split; [|split].
  - intros Ha. now apply (paste_opaque_sized sz).
  - intros Ha o1 Ho1 Hink.
    rewrite paste_transparent by assumption.
    unfold under1. rewrite Ho1.
    apply (paste_opaque_sized sz); try assumption. now rewrite size_blurred.
  - intros Ha Hclear o2 Ho2 Hink.
    rewrite paste_transparent by assumption.
    assert (getpixel under1 x y = getpixel under2 x y) as ->.
    { unfold under1. destruct (outline_data_1 p) as [o1|]; [|reflexivity].
      apply paste_transparent. now apply Hclear. }
    unfold under2. rewrite Ho2.
    apply (paste_opaque_sized sz); try assumption. now rewrite size_blurred.
Qed.

(** C3. The canvas that an application returns is the caller's canvas
    after these pastes, in this order: the background image if one is
    configured, the fill layer once per line, the outline-2 layer if
    configured, the outline-1 layer if configured, the fill layer.  So a
    pixel where the fill layer is opaque shows the fill layer; where the
    fill is clear and outline 1 is opaque it shows outline 1; where both
    are clear (or outline 1 is absent) and outline 2 is opaque it shows
    outline 2, whatever the background and the canvas had there.  When
    the application raises, the canvas has received the background at
    most. *)
Theorem compositing_order (B : Backend) (image : Image) (subtitle : Subtitle) :
  let p := subtitle_profile subtitle in
  match apply_subtitle_to_image B image subtitle with
  | Returned final =>
      exists wrapped_text font text_height st,
        analyze_text B subtitle = inr (wrapped_text, font, text_height)
        /\ render_lines B image subtitle = inr st
        /\ let fills :=
             map text_layer (line_passes B image subtitle wrapped_text font text_height) in
           length fills = length wrapped_text
           /\ last fills (text_layer st) = text_layer st
           /\ final
              = composite image
                  (background_pastes B p
                   ++ fills
                   ++ outline_pastes B (outline_data_2 p) (outline_2_layer st)
                   ++ outline_pastes B (outline_data_1 p) (outline_1_layer st)
                   ++ [text_layer st])
           /\ forall x y, inside (size image) x y = true ->
                let fill := getpixel (text_layer st) x y in
                (alpha fill = xff -> getpixel final x y = fill)
                /\ (alpha fill = x00 ->
                    forall o1, outline_data_1 p = Some o1 ->
                    let ink1 := getpixel (blurred B o1 (outline_1_layer st)) x y in
                    alpha ink1 = xff -> getpixel final x y = ink1)
                /\ (alpha fill = x00 ->
                    (forall o1, outline_data_1 p = Some o1 ->
                       alpha (getpixel (blurred B o1 (outline_1_layer st)) x y) = x00) ->
                    forall o2, outline_data_2 p = Some o2 ->
                    let ink2 := getpixel (blurred B o2 (outline_2_layer st)) x y in
                    alpha ink2 = xff -> getpixel final x y = ink2)
  | Raised e c => c = composite image (background_pastes B p)
  end.
Proof.
  intros p. unfold apply_subtitle_to_image.
  destruct (render_lines B image subtitle) as [[e c]|st] eqn:Hrun.
  - now apply render_lines_raised in Hrun.
  - destruct (render_lines_returned _ _ _ _ Hrun)
      as [wrapped_text [font [text_height [Han [Hlast [Hlen [Hcanvas Hsized]]]]]]].
    exists wrapped_text, font, text_height, st.
    split; [assumption|]. split; [reflexivity|]. cbv zeta.
    split; [now rewrite length_map|]. split; [|split].
    + eapply last_map_self. exact Hlast.
    + rewrite apply_paste_composite, Hcanvas, <- composite_app.
      fold p. now rewrite <- app_assoc.
    + intros x y Hin. now apply (apply_paste_pixels B p st (size image)).
Qed.

Lemma apply_subtitle_to_image_size (B : Backend) (image final : Image) (s : Subtitle) :
  apply_subtitle_to_image B image s = Returned final -> size final = size image.
Proof.
  unfold apply_subtitle_to_image.
  destruct (render_lines B image s) as [[e c]|st] eqn:Hrun; [discriminate|].
  intros E. inversion E; subst final.
  destruct (render_lines_returned _ _ _ _ Hrun) as [w [f [h [_ [_ [_ [_ Hsized]]]]]]].
  rewrite size_apply_paste. apply Hsized.
Qed.

(** The layers that a subtitle draws depend on the size of the canvas
    only, not on what the canvas shows. *)
Lemma render_lines_layers (B : Backend) (c1 c2 : Image) (s : Subtitle) (st1 st2 : layers) :
  size c1 = size c2 ->
  render_lines B c1 s = inr st1 -> render_lines B c2 s = inr st2 ->
  text_layer st1 = text_layer st2.
Proof.
  intros Hsize. rewrite !render_lines_unfold.
  destruct (open_background B c1 (subtitle_profile s)) as [e|c1']; [discriminate|].
  destruct (open_background B c2 (subtitle_profile s)) as [e|c2']; [discriminate|].
  destruct (analyze_text B s) as [e|[[wrapped_text font] text_height]]; [discriminate|].
  cbv zeta. rewrite Hsize.
  destruct (add_text _ _ _ _ _ _ _ _ (mkLayers c1' _ _ _) _ _) as [[e1|] s1] eqn:Hrun1;
    [discriminate|].
  destruct (add_text _ _ _ _ _ _ _ _ (mkLayers c2' _ _ _) _ _) as [[e2|] s2] eqn:Hrun2;
    [discriminate|].
  intros E1 E2. inversion E1; inversion E2; subst.
  eapply add_text_layers_independent; [| | |exact Hrun1|exact Hrun2]; reflexivity.
Qed.

Lemma fold_left_raised (B : Backend) (l : list Subtitle) (e : exn) :
  fold_left (fun acc subtitle =>
               canvas <- acc ;; to_sum (apply_subtitle_to_image B canvas subtitle))
    l (inl e) = inl e.
Proof. induction l as [|s l IH]; [reflexivity|exact IH]. Qed.

Lemma apply_subtitles_fold (B : Backend) (l : list Subtitle) :
  forall image,
    apply_subtitles B image l
    = fold_left (fun acc subtitle =>
                   canvas <- acc ;; to_sum (apply_subtitle_to_image B canvas subtitle))
        l (inr image).
Proof.
  induction l as [|s l IH]; intros image; [reflexivity|].
  cbn [apply_subtitles fold_left bind].
  destruct (apply_subtitle_to_image B image s) as [next|e c]; cbn [to_sum].
  - apply IH.
  - now rewrite fold_left_raised.
Qed.

(** C4. [apply_subtitle_group] opens the canvas once and folds
    [apply_subtitle_to_image] over the subtitle list from the left,
    each subtitle receiving the canvas the previous one returned; it
    returns the last canvas (or raises the first exception).  With two
    subtitles, wherever the fill ink of the second is opaque the result
    shows that ink, and the ink is the same whatever the first subtitle
    left on the canvas. *)
Theorem group_applies_in_list_order (B : Backend) (self : SubtitleService)
    (group : SubtitleGroup) :
  match Image_open B (os_path_join B (input_image_directory (subtitle_model self))
                        (image_id group)) with
  | None => apply_subtitle_group B self group = inl OSError_image
  | Some image =>
      apply_subtitle_group B self group
      = fold_left (fun acc subtitle =>
                     canvas <- acc ;; to_sum (apply_subtitle_to_image B canvas subtitle))
          (subtitle_list group) (inr image)
      /\ forall first second final,
           subtitle_list group = [first; second] ->
           apply_subtitle_group B self group = inr final ->
           exists mid st,
             apply_subtitle_to_image B image first = Returned mid
             /\ apply_subtitle_to_image B mid second = Returned final
             /\ render_lines B mid second = inr st
             /\ (forall other st',
                   size other = size image ->
                   render_lines B other second = inr st' ->
                   text_layer st' = text_layer st)
             /\ forall x y,
                  inside (size image) x y = true ->
                  alpha (getpixel (text_layer st) x y) = xff ->
                  getpixel final x y = getpixel (text_layer st) x y
  end.
Proof.
  unfold apply_subtitle_group. cbv zeta.
  destruct (Image_open B _) as [image|]; [|reflexivity].
  split; [apply apply_subtitles_fold|].
  intros first second final Hlist Hrun.
  rewrite Hlist in Hrun. cbn [apply_subtitles] in Hrun.
  destruct (apply_subtitle_to_image B image first) as [mid|e c] eqn:Hfirst;
    [|discriminate].
  destruct (apply_subtitle_to_image B mid second) as [final'|e c] eqn:Hsecond;
    [|discriminate].
  inversion Hrun; subst final'. clear Hrun.
  pose proof (apply_subtitle_to_image_size _ _ _ _ Hfirst) as Hmid.
  unfold apply_subtitle_to_image in Hsecond.
  destruct (render_lines B mid second) as [[e c]|st] eqn:Hlines; [discriminate|].
  inversion Hsecond; subst final. clear Hsecond.
  exists mid, st. split; [reflexivity|].
  split; [unfold apply_subtitle_to_image; now rewrite Hlines|].
  split; [exact Hlines|]. split.
  - intros other st' Hother Hlines'.
    eapply render_lines_layers; [|exact Hlines'|exact Hlines]. congruence.
  - intros x y Hin Ha.
    destruct (render_lines_returned _ _ _ _ Hlines) as [w [f [h [_ [_ [_ [_ Hsized]]]]]]].
    rewrite Hmid in Hsized.
    now apply (apply_paste_pixels B (subtitle_profile second) st (size image)).
Qed.






(** C5 (as implemented). An empty logical line produces no physical line: the
    flattened output is what it would be without that line. *)
Theorem empty_line_is_dropped (width : Z) (before after : list text) :
  0 < width ->
  wrap [] width = inr []
  /\ wrapped (before ++ [] :: after) width = wrapped (before ++ after) width.
Proof.
  intros Hw.
  assert (wrap [] width = inr []) as Hempty
    by (apply wrap_whitespace_only; [assumption|reflexivity]).
  split; [exact Hempty|]. unfold wrapped.
  rewrite !mapM_app. cbn [mapM]. rewrite Hempty. cbn [bind].
  destruct (mapM (fun line => wrap line width) before) as [e|a]; cbn [bind];
    [reflexivity|].
  destruct (mapM (fun line => wrap line width) after) as [e|b]; cbn [bind];
    [reflexivity|].
  now rewrite !concat_app.
Qed.


(** C9 (as implemented). A non-empty line of at most [width] characters whose
    only whitespace characters are plain spaces and which does not end in
    whitespace is returned unchanged, as a single physical line. *)
Theorem short_line_is_unchanged (line : text) (width : Z) :
    0 < width -> line <> [] -> len line <= width ->
    plain_spaces line -> isspace (last line space) = false ->
    wrap line width = inr [line].
Proof.
  intros Hw Hne Hshort Hplain Hend.
  unfold wrap, _split_chunks. rewrite _munge_whitespace_plain by assumption.
  pose proof (_split_concat line) as Hcat.
  pose proof (_split_nonempty line) as Hall.
  set (chunks := _split line) in *.
  assert (chunks <> []) as Hchunks by (intros E; rewrite E in Hcat; simpl in Hcat; congruence).
  unfold _wrap_chunks.
  replace (width <=? 0) with false by (symmetry; apply Z.leb_gt; lia).
  pose proof (wrap_step_one_line width chunks Hchunks Hall) as Hstep.
  rewrite Hcat in Hstep. specialize (Hstep Hshort Hend).
  destruct chunks as [|top below]; [congruence|].
  cbn [wrap_loop]. rewrite Hstep. reflexivity.
Qed.

(** * The program on concrete inputs *)

(** The end-to-end scenario of the specification: "HELLO", 100 pixels
    wide with a height basis of 20, centred on a 200x100 canvas with push
    up, has its origin at (50, 30) and is drawn there in black. *)
Example end_to_end :
  exists x y final,
    line_pos Demo.mono (Demo.textbox "center" "up") 200 100 20 1 20 0 (str "HELLO")
    = inr (x, y)
    /\ (x == 50)%Q /\ (y == 30)%Q
    /\ apply_subtitle_to_image Demo.pil Demo.base Demo.hello = Returned final
    /\ getpixel final 50 30 = Demo.black
    /\ getpixel final 149 45 = Demo.black
    /\ getpixel final 49 30 = Demo.clear
    /\ getpixel final 50 29 = Demo.clear.
Proof.
  do 3 eexists. split; [reflexivity|]. split; [reflexivity|]. split; [reflexivity|].
  split; [reflexivity|]. repeat split; vm_compute; reflexivity.
Qed.

(** Fill over outline 1 over outline 2 over the background. *)
Example layers_stack :
  exists final,
    apply_subtitle_to_image Demo.pil Demo.base Demo.outlined = Returned final
    /\ getpixel final 60 35 = Demo.black
    /\ getpixel final 49 35 = Demo.green_
    /\ getpixel final 47 35 = Demo.blue_
    /\ getpixel final 40 35 = Demo.red_.
Proof.
  eexists. split; [reflexivity|]. repeat split; vm_compute; reflexivity.
Qed.



(** C3, on a line with both outlines over a background image. *)
Lemma compositing_order_witness :
  exists final,
    apply_subtitle_to_image Demo.pil Demo.base Demo.outlined = Returned final
    /\ exists st,
         render_lines Demo.pil Demo.base Demo.outlined = inr st
         /\ final
            = composite Demo.base
                ([Demo.backdrop] ++ [text_layer st]
                 ++ [outline_2_layer st] ++ [outline_1_layer st] ++ [text_layer st]).
Proof.
  pose proof (compositing_order Demo.pil Demo.base Demo.outlined) as H.
  cbv zeta in H.
  destruct (apply_subtitle_to_image Demo.pil Demo.base Demo.outlined) as [final|e c] eqn:E;
    [|discriminate E].
  exists final. split; [reflexivity|].
  destruct H as [w [f [h [st [Han [Hst [_ [_ [Hfinal _]]]]]]]]].
  exists st. split; [exact Hst|].
  assert (analyze_text Demo.pil Demo.outlined = inr ([str "HELLO"], Demo.mono, 20))
    as Han' by reflexivity.
  rewrite Han' in Han. inversion Han; subst w f h.
  rewrite Hfinal. inversion Hst; subst st. reflexivity.
Defined.

(** C4, on two subtitles that draw the same line, the second in red. *)
Lemma group_applies_in_list_order_witness :
  Image_open Demo.pil "input/0001.png" = Some Demo.base
  /\ exists final,
       apply_subtitle_group Demo.pil Demo.service Demo.pair = inr final
       /\ exists mid st,
            apply_subtitle_to_image Demo.pil Demo.base Demo.hello = Returned mid
            /\ getpixel mid 60 35 = Demo.black
            /\ render_lines Demo.pil mid Demo.hello_red = inr st
            /\ getpixel (text_layer st) 60 35 = Demo.red_
            /\ getpixel final 60 35 = Demo.red_.
Proof.
  split; [reflexivity|].
  destruct (apply_subtitle_group Demo.pil Demo.service Demo.pair) as [e|final] eqn:E;
    [discriminate E|].
  exists final. split; [reflexivity|].
  destruct (proj2 (group_applies_in_list_order Demo.pil Demo.service Demo.pair)
              Demo.hello Demo.hello_red final eq_refl E)
    as [mid [st [Hmid [_ [Hst [_ Hpix]]]]]].
  exists mid, st. split; [exact Hmid|].
  assert (getpixel mid 60 35 = Demo.black) as Hblack
    by (inversion Hmid; reflexivity).
  assert (getpixel (text_layer st) 60 35 = Demo.red_) as Hink
    by (inversion Hmid; subst mid; inversion Hst; reflexivity).
  split; [exact Hblack|]. split; [exact Hst|]. split; [exact Hink|].
  rewrite <- Hink. apply Hpix; [reflexivity|]. now rewrite Hink.
Defined.

(** C5: the blank line between two lines leaves no physical line. *)
Lemma empty_line_not_preserved :
  wrapped [str "a"; []; str "b"] 10 = inr [str "a"; str "b"]
  /\ wrapped [str "a"; []; str "b"] 10 <> inr [str "a"; []; str "b"].
Proof. split; [reflexivity|discriminate]. Qed.

(** C5, on the same three lines. *)
Lemma empty_line_is_dropped_witness :
  0 < 10
  /\ wrap [] 10 = inr []
  /\ wrapped ([str "a"] ++ [] :: [str "b"]) 10 = wrapped ([str "a"] ++ [str "b"]) 10.
Proof. split; [lia|]. apply (empty_line_is_dropped 10 [str "a"] [str "b"]). lia. Defined.







(** C9: a short line that ends in a space loses it. *)
Lemma short_line_changed :
  len (str "hi ") <= 10
  /\ wrap (str "hi ") 10 = inr [str "hi"]
  /\ wrap (str "hi ") 10 <> inr [str "hi "].
Proof. split; [vm_compute; discriminate|]. split; [reflexivity|discriminate]. Qed.

(** C9, on a line of two words. *)
Lemma short_line_is_unchanged_witness :
  0 < 20 /\ len (str "hello world") <= 20
  /\ wrap (str "hello world") 20 = inr [str "hello world"].
Proof.
  split; [lia|]. split; [vm_compute; discriminate|].
  apply (short_line_is_unchanged (str "hello world") 20).
  - lia.
  - discriminate.
  - vm_compute. discriminate.
  - unfold plain_spaces. repeat constructor; intros H; try discriminate H; reflexivity.
  - reflexivity.
Defined.



(** * More on the text wrapper *)

Lemma concat_nonempty (l : list text) :
  l <> [] -> Forall (fun c => c <> []) l -> concat l <> [].
Proof.
  intros Hne Hall. destruct l as [|c l]; [congruence|].
  inversion Hall; subst. simpl. destruct c; [congruence|discriminate].
Qed.

Lemma Forall_removelast {A} (P : A -> Prop) (l : list A) :
  Forall P l -> Forall P (removelast l).
Proof.
  intros H. destruct l as [|x l'] eqn:E; [constructor|].
  rewrite <- E in *. assert (l <> []) as Hne by (rewrite E; discriminate).
  rewrite (app_removelast_last x Hne) in H. now apply Forall_app in H.
Qed.

Lemma len_concat_removelast (l : list text) :
  len (concat (removelast l)) <= len (concat l).
Proof.
  destruct l as [|x0 l0] eqn:E; [simpl; lia|]. rewrite <- E.
  assert (l <> []) as Hne by (rewrite E; discriminate).
  destruct (exists_last Hne) as [l' [x ->]].
  rewrite removelast_last, concat_app, len_app.
  pose proof (len_nonneg (concat [x])). lia.
Qed.

(** What the inner loop takes is a prefix of the chunks, and the line
    stays within the width. *)
Lemma fill_line_prefix (width : Z) (chunks : list text) :
  forall cur_line cur_len rest cl clen,
    fill_line width chunks cur_line cur_len = (rest, cl, clen) ->
    exists taken,
      chunks = taken ++ rest /\ cl = cur_line ++ taken
      /\ clen = cur_len + len (concat taken)
      /\ (cur_len <= width -> clen <= width).
Proof.
  induction chunks as [|c chunks IH]; intros cur_line cur_len rest cl clen Hfill;
    simpl in Hfill.
  - inversion Hfill; subst. exists []. unfold len. simpl.
    repeat split; auto; try lia; now rewrite app_nil_r.
  - destruct (cur_len + len c <=? width) eqn:Hfit.
    + apply Z.leb_le in Hfit. apply IH in Hfill.
      destruct Hfill as [taken [Hc [Hcl [Hlen Hw]]]].
      exists (c :: taken). subst. rewrite <- app_assoc. simpl. rewrite len_app.
      repeat split; auto; lia.
    + inversion Hfill; subst. exists []. unfold len. simpl.
      repeat split; auto; try lia; now rewrite app_nil_r.
Qed.

Lemma len_cons {A} (c : A) (s : list A) : len (c :: s) = 1 + len s.
Proof. unfold len. cbn [length]. lia. Qed.

Lemma rfind_from_bound (s : text) :
  forall i, rfind_from i s = -1 \/ i <= rfind_from i s < i + len s.
Proof.
  induction s as [|c s IH]; intros i; cbn [rfind_from]; [now left|].
  rewrite len_cons.
  destruct (0 <=? rfind_from (i + 1) s) eqn:E.
  - apply Z.leb_le in E. destruct (IH (i + 1)) as [Hn|Hb]; [lia|right; lia].
  - destruct (is_hyphen c); [right; pose proof (len_nonneg s); lia|now left].
Qed.

Lemma len_slice_to (s : text) (e : Z) : 0 <= e -> len (slice_to s e) <= e.
Proof.
  intros He. unfold slice_to. rewrite clip_nonneg by assumption.
  unfold len. rewrite length_firstn. lia.
Qed.

Lemma rfind_hyphen_bound (chunk : text) (e : Z) :
  0 <= e -> rfind_hyphen chunk e < e.
Proof.
  intros He. unfold rfind_hyphen.
  pose proof (len_slice_to chunk e He).
  destruct (rfind_from_bound (slice_to chunk e) 0) as [Hn|Hb]; lia.
Qed.

(** The piece of a long word that goes on the current line fits in what
    is left of it, and something of the word remains. *)
Lemma _handle_long_word_fits (width cur_len : Z) (c : text) (r cur_line : list text) :
  0 < width -> 0 <= cur_len <= width -> width < len c ->
  exists piece rest,
    _handle_long_word (c :: r) cur_line cur_len width = (rest :: r, cur_line ++ [piece])
    /\ rest <> [] /\ len piece <= width - cur_len.
Proof.
  intros Hw Hcur Hlong. unfold _handle_long_word.
  replace (width <? 1) with false by (symmetry; apply Z.ltb_ge; lia).
  replace (width - cur_len <? len c) with true by (symmetry; apply Z.ltb_lt; lia).
  set (end_ := if (0 <? rfind_hyphen c (width - cur_len)) && _
               then rfind_hyphen c (width - cur_len) + 1 else width - cur_len).
  assert (0 <= end_ <= width - cur_len) as Hend.
  { unfold end_. pose proof (rfind_hyphen_bound c (width - cur_len) ltac:(lia)).
    match goal with |- _ <= (if ?b then _ else _) <= _ => destruct b eqn:Hb end; [|lia].
    apply andb_prop in Hb. destruct Hb as [Hb _]. apply Z.ltb_lt in Hb. lia. }
  exists (slice_to c end_), (slice_from c end_). split; [reflexivity|]. split.
  - unfold slice_from. rewrite clip_nonneg by lia. intros E.
    apply (f_equal (@length ascii)) in E. rewrite length_skipn in E.
    unfold len in Hlong. simpl in E. lia.
  - pose proof (len_slice_to c end_ ltac:(lia)). lia.
Qed.

(** One pass of the chunk loop adds at most one line; that line is not
    empty and is at most [width] characters long. *)
Lemma wrap_step_line (width : Z) (chunks lines chunks' lines' : list text) :
  0 < width -> Forall (fun c => c <> []) chunks ->
  wrap_step width chunks lines = (chunks', lines') ->
  Forall (fun c => c <> []) chunks'
  /\ (lines' = lines
      \/ exists line, lines' = lines ++ [line] /\ line <> [] /\ len line <= width).
Proof.
  intros Hw Hall. unfold wrap_step.
  set (chunks1 := match chunks with
                  | top :: below =>
                      if strip_is_empty top && nonempty lines then below else chunks
                  | [] => chunks
                  end).
  assert (Forall (fun c => c <> []) chunks1) as Hall1.
  { unfold chunks1. destruct chunks as [|top below]; [assumption|].
    destruct (strip_is_empty top && nonempty lines); [now inversion Hall|assumption]. }
  destruct (fill_line width chunks1 [] 0) as [[chunks2 cl] clen] eqn:Hfill.
  apply fill_line_prefix in Hfill. destruct Hfill as [taken [Hsplit [Hcl [Hclen Hfit]]]].
  simpl in Hcl. subst cl. specialize (Hfit ltac:(lia)).
  rewrite Hsplit in Hall1. apply Forall_app in Hall1. destruct Hall1 as [Htaken Hrest].
  pose proof (len_nonneg (concat taken)) as Hpos.
  assert (exists chunks3 cl3,
             match chunks2 with
             | c :: _ =>
                 if width <? len c
                 then _handle_long_word chunks2 taken clen width
                 else (chunks2, taken)
             | [] => (chunks2, taken)
             end = (chunks3, cl3)
             /\ Forall (fun c => c <> []) chunks3
             /\ len (concat cl3) <= width
             /\ (cl3 = taken
                 \/ exists piece, cl3 = taken ++ [piece])) as Hhandle.
  { destruct chunks2 as [|c r].
    - exists [], taken. repeat split; auto. lia.
    - destruct (width <? len c) eqn:Hlong.
      + apply Z.ltb_lt in Hlong.
        destruct (_handle_long_word_fits width clen c r taken Hw ltac:(lia) Hlong)
          as [piece [rest [Heq [Hrest' Hpiece]]]].
        exists (rest :: r), (taken ++ [piece]). split; [exact Heq|]. split.
        * constructor; [assumption|now inversion Hrest].
        * split; [|right; now exists piece].
          rewrite concat_app, len_app. simpl. rewrite app_nil_r. lia.
      + exists (c :: r), taken. repeat split; auto. lia. }
  destruct Hhandle as [chunks3 [cl3 [-> [Hall3 [Hlen3 Hshape]]]]].
  intros E. inversion E; subst chunks' lines'. clear E. split; [assumption|].
  set (cl4 := if nonempty cl3 && strip_is_empty (last cl3 []) then removelast cl3 else cl3).
  assert (len (concat cl4) <= width) as Hlen4.
  { unfold cl4. destruct (nonempty cl3 && strip_is_empty (last cl3 []));
      [pose proof (len_concat_removelast cl3); lia|assumption]. }
  destruct (nonempty cl4) eqn:Hne4; [|now left].
  right. exists (concat cl4). split; [reflexivity|]. split; [|assumption].
  apply concat_nonempty; [destruct cl4; [discriminate|discriminate]|].
  unfold cl4 in *. destruct Hshape as [->|[piece ->]].
  - destruct (nonempty taken && strip_is_empty (last taken []));
      [now apply Forall_removelast|assumption].
  - rewrite last_last in *.
    replace (nonempty (taken ++ [piece])) with true in * by (now destruct taken).
    cbn [andb] in *. destruct (strip_is_empty piece) eqn:Hpiece.
    + now rewrite removelast_last.
    + apply Forall_app. split; [assumption|]. constructor; [|constructor].
      intros ->. discriminate.
Qed.

Lemma wrap_loop_lines (width : Z) (fuel : nat) :
  forall chunks lines result,
    0 < width -> Forall (fun c => c <> []) chunks ->
    Forall (fun l => l <> [] /\ len l <= width) lines ->
    wrap_loop fuel width chunks lines = Some result ->
    Forall (fun l => l <> [] /\ len l <= width) result.
Proof.
  induction fuel as [|fuel IH]; intros chunks lines result Hw Hall Hlines Hrun.
  - destruct chunks; [now inversion Hrun; subst|discriminate].
  - destruct chunks as [|top below]; [now inversion Hrun; subst|].
    cbn [wrap_loop] in Hrun.
    destruct (wrap_step width (top :: below) lines) as [chunks' lines'] eqn:Hstep.
    apply wrap_step_line in Hstep; [|assumption..].
    destruct Hstep as [Hall' Hline]. eapply IH; [assumption|exact Hall'| |exact Hrun].
    destruct Hline as [->|[line [-> [Hne Hlen]]]]; [assumption|].
    apply Forall_app. split; [assumption|]. constructor; [now split|constructor].
Qed.

Lemma wrap_lines (s : text) (width : Z) (lines : list text) :
  wrap s width = inr lines -> Forall (fun l => l <> [] /\ len l <= width) lines.
Proof.
  unfold wrap, _wrap_chunks. destruct (width <=? 0) eqn:Hw; [discriminate|].
  apply Z.leb_gt in Hw.
  destruct (wrap_loop _ _ _ _) as [r|] eqn:Hrun; intros E; inversion E; subst;
    [|constructor].
  eapply wrap_loop_lines; [exact Hw| |constructor|exact Hrun].
  unfold _split_chunks. apply _split_nonempty.
Qed.

Lemma mapM_Forall {A C} (f : A -> exn + C) (P : C -> Prop) (xs : list A) :
  (forall x y, f x = inr y -> P y) ->
  forall ys, mapM f xs = inr ys -> Forall P ys.
Proof.
  intros Hf. induction xs as [|x xs IH]; intros ys Hys; cbn [mapM] in Hys.
  - inversion Hys. constructor.
  - destruct (f x) as [e|y] eqn:Hx; cbn [bind] in Hys; [discriminate|].
    destruct (mapM f xs) as [e|ys'] eqn:Hxs; cbn [bind] in Hys; [discriminate|].
    inversion Hys; subst. constructor; [eapply Hf; eauto|now apply IH].
Qed.

(** X1. Every physical line of the wrapped content is non-empty and at
    most [box_width] characters long. *)
Theorem wrapped_lines_fit (content : list text) (box_width : Z) (lines : list text) :
  wrapped content box_width = inr lines ->
  Forall (fun line => line <> [] /\ len line <= box_width) lines.
Proof.
  unfold wrapped.
  destruct (mapM (fun line => wrap line box_width) content) as [e|per_line] eqn:Hmap;
    cbn [bind]; [discriminate|].
  intros E. inversion E; subst lines. clear E.
  apply Forall_concat.
  eapply mapM_Forall; [|exact Hmap]. intros x y Hxy. now apply wrap_lines in Hxy.
Qed.

(** X2. The logical lines are wrapped one by one and their physical lines
    kept in order: the wrapped concatenation of two contents is the
    wrapped first followed by the wrapped second, and the first line that
    cannot be wrapped raises. *)
Theorem wrapped_app (first second : list text) (box_width : Z) :
  wrapped (first ++ second) box_width
  = (a <- wrapped first box_width ;; b <- wrapped second box_width ;; inr (a ++ b)).
Proof.
  unfold wrapped. rewrite mapM_app.
  destruct (mapM (fun line => wrap line box_width) first) as [e|a]; cbn [bind];
    [reflexivity|].
  destruct (mapM (fun line => wrap line box_width) second) as [e|b]; cbn [bind];
    [reflexivity|].
  now rewrite concat_app.
Qed.

(** X3. A logical line made of whitespace only (spaces, tabs, newlines
    and the like) leaves no physical line, wherever it stands in the
    content. *)
Theorem blank_line_is_dropped (box_width : Z) (before after : list text) (blank : text) :
  0 < box_width -> whitespace_only blank ->
  wrapped (before ++ blank :: after) box_width = wrapped (before ++ after) box_width.
Proof.
  intros Hw Hblank. unfold wrapped. rewrite !mapM_app. cbn [mapM].
  rewrite (wrap_whitespace_only blank box_width Hw Hblank). cbn [bind].
  destruct (mapM (fun line => wrap line box_width) before) as [e|a]; cbn [bind];
    [reflexivity|].
  destruct (mapM (fun line => wrap line box_width) after) as [e|b]; cbn [bind];
    [reflexivity|].
  now rewrite !concat_app.
Qed.

(** *** A word longer than the width *)

Lemma in_whitespace_isspace (c : ascii) : in_whitespace c = true -> isspace c = true.
Proof.
  unfold in_whitespace, isspace, between. intros H.
  apply orb_prop in H. destruct H as [H|H].
  - now rewrite H.
  - apply N.eqb_eq in H. now rewrite H.
Qed.

Lemma solid_not_whitespace (c : ascii) : isspace c = false -> in_whitespace c = false.
Proof.
  intros H. destruct (in_whitespace c) eqn:E; [|reflexivity].
  apply in_whitespace_isspace in E. congruence.
Qed.

Lemma solid_plain_spaces (s : text) : solid s -> plain_spaces s.
Proof.
  unfold solid, plain_spaces. intros H. eapply Forall_impl; [|exact H].
  intros c [Hc _] Hw. apply solid_not_whitespace in Hc. congruence.
Qed.

Lemma word_end_solid (after : text) :
  solid after -> forall before, word_end before after = length after.
Proof.
  intros H. induction H as [|c after [Hs Hh] Hall IH]; intros before; [reflexivity|].
  cbn [word_end]. rewrite Hh. cbn [andb]. rewrite (solid_not_whitespace c Hs).
  unfold dashes_then_word. cbn [span_len]. rewrite Hh. cbn [Nat.leb].
  rewrite andb_false_r. now rewrite IH.
Qed.

(** The splitter leaves such text in one piece. *)
Lemma _split_solid (s : text) : s <> [] -> solid s -> _split s = [s].
Proof.
  intros Hne Hs. destruct s as [|c s']; [congruence|].
  inversion Hs as [|? ? [Hc Hh] Hs']; subst.
  unfold _split. cbn [length split_from].
  assert (match_len [] (c :: s') = S (length s')) as ->.
  { unfold match_len. rewrite (solid_not_whitespace c Hc). cbn [behind_word_punct andb].
    now rewrite word_end_solid. }
  change (S (length s')) with (length (c :: s')).
  rewrite firstn_all, skipn_all.
  replace (split_from (length s') (rev (c :: s') ++ []) []) with (@nil text)
    by (now destruct (length s')).
  reflexivity.
Qed.

Lemma solid_firstn (n : nat) (s : text) : solid s -> solid (firstn n s).
Proof.
  unfold solid. intros H. rewrite <- (firstn_skipn n s) in H. now apply Forall_app in H.
Qed.

Lemma solid_skipn (n : nat) (s : text) : solid s -> solid (skipn n s).
Proof.
  unfold solid. intros H. rewrite <- (firstn_skipn n s) in H. now apply Forall_app in H.
Qed.

Lemma solid_strip (s : text) : s <> [] -> solid s -> strip_is_empty s = false.
Proof.
  intros Hne Hs. destruct s as [|c s']; [congruence|].
  inversion Hs as [|? ? [Hc _] _]; subst. cbn. now rewrite Hc.
Qed.

Lemma rfind_from_solid (s : text) : solid s -> forall i, rfind_from i s = -1.
Proof.
  intros H. induction H as [|c s [_ Hh] Hall IH]; intros i; [reflexivity|].
  cbn [rfind_from]. rewrite IH. cbn. now rewrite Hh.
Qed.

(** One pass on a lone solid chunk: a full line, or the rest of the
    word. *)
Lemma wrap_step_solid (width : Z) (c : text) (lines : list text) :
  0 < width -> c <> [] -> solid c ->
  wrap_step width [c] lines
  = (match skipn (Z.to_nat width) c with [] => [] | rest => [rest] end,
     lines ++ [firstn (Z.to_nat width) c]).
Proof.
  intros Hw Hne Hs. unfold wrap_step.
  rewrite (solid_strip c Hne Hs). cbn [andb fill_line]. rewrite Z.add_0_l.
  destruct (len c <=? width) eqn:Hfit.
  - apply Z.leb_le in Hfit. cbn [app last nonempty andb].
    rewrite (solid_strip c Hne Hs). cbn [nonempty].
    rewrite firstn_all2, skipn_all2 by (unfold len in Hfit; lia).
    cbn [concat]. now rewrite app_nil_r.
  - apply Z.leb_gt in Hfit.
    replace (width <? len c) with true by (symmetry; apply Z.ltb_lt; lia).
    unfold _handle_long_word.
    replace (width <? 1) with false by (symmetry; apply Z.ltb_ge; lia).
    rewrite Z.sub_0_r.
    replace (width <? len c) with true by (symmetry; apply Z.ltb_lt; lia).
    unfold rfind_hyphen. rewrite rfind_from_solid by (now apply solid_firstn).
    cbn [Z.ltb Z.compare andb app last nonempty].
    unfold slice_to, slice_from. rewrite clip_nonneg by lia.
    assert (firstn (Z.to_nat width) c <> []) as Hpiece.
    { intros E. apply (f_equal (@length ascii)) in E. rewrite length_firstn in E.
      unfold len in Hfit. simpl in E. lia. }
    assert (skipn (Z.to_nat width) c <> []) as Hrest.
    { intros E. apply (f_equal (@length ascii)) in E. rewrite length_skipn in E.
      unfold len in Hfit. simpl in E. lia. }
    rewrite (solid_strip _ Hpiece (solid_firstn _ _ Hs)). cbn [nonempty].
    cbn [concat]. rewrite app_nil_r.
    destruct (skipn (Z.to_nat width) c); [congruence|reflexivity].
Qed.

Lemma wrap_loop_solid (width : Z) (fuel : nat) :
  forall c lines,
    0 < width -> c <> [] -> solid c -> (length c < fuel)%nat ->
    wrap_loop fuel width [c] lines
    = Some (lines ++ chop (length c) (Z.to_nat width) c).
Proof.
  induction fuel as [|fuel IH]; intros c lines Hw Hne Hs Hfuel; [lia|].
  cbn [wrap_loop]. rewrite wrap_step_solid by assumption.
  destruct c as [|c0 c']; [congruence|].
  cbn [length chop].
  destruct (skipn (Z.to_nat width) (c0 :: c')) as [|r0 r'] eqn:Hrest.
  - replace (chop (length c') (Z.to_nat width) []) with (@nil text)
      by (now destruct (length c')).
    now destruct fuel.
  - assert (length (r0 :: r') = length (c0 :: c') - Z.to_nat width)%nat as Hlen
      by (rewrite <- Hrest; apply length_skipn).
    rewrite IH.
    + rewrite <- app_assoc. cbn [app]. do 3 f_equal.
      (* the fuel of [chop] only has to cover the text *)
      clear -Hlen Hw. cbn [length] in Hlen.
      assert (forall m k s, (length s <= m)%nat -> (length s <= k)%nat ->
                chop m (Z.to_nat width) s = chop k (Z.to_nat width) s) as Hfuel.
      { induction m as [|m IHm]; intros k s Hm Hk.
        - destruct s; [now destruct k|simpl in Hm; lia].
        - destruct s as [|a s]; [now destruct k|].
          destruct k as [|k]; [simpl in Hk; lia|].
          cbn [chop]. f_equal. apply IHm; rewrite length_skipn; cbn [length] in *; lia. }
      apply Hfuel; cbn [length]; lia.
    + assumption.
    + discriminate.
    + rewrite <- Hrest. now apply solid_skipn.
    + cbn [length] in *. lia.
Qed.

(** X4. A word without whitespace or hyphens is cut into pieces of
    [width] characters, the last one holding what is left. *)
Theorem long_word_is_chopped (word : text) (width : Z) :
  0 < width -> solid word ->
  wrap word width = inr (chop (length word) (Z.to_nat width) word).
Proof.
  intros Hw Hs. unfold wrap, _split_chunks.
  rewrite _munge_whitespace_plain by (now apply solid_plain_spaces).
  unfold _wrap_chunks.
  replace (width <=? 0) with false by (symmetry; apply Z.leb_gt; lia).
  destruct word as [|c word']; [reflexivity|].
  rewrite _split_solid by (assumption || discriminate).
  rewrite wrap_loop_solid; [reflexivity|assumption|discriminate|assumption|].
  cbn [weight fold_right length]. lia.
Qed.

(** * More on the line positioner *)

Local Open Scope Q_scope.




Local Close Scope Q_scope.

(** * The exceptions of one application, in the order they are met *)

(** X8. A background image that cannot be opened is the first thing to
    fail: the application raises on it with the canvas untouched,
    whatever the text, the font and the text box are. *)
Theorem background_error_first (B : Backend) (image : Image) (subtitle : Subtitle)
    (path : string) :
  background_image_path (subtitle_profile subtitle) = Some path ->
  Image_open B path = None ->
  apply_subtitle_to_image B image subtitle = Raised OSError_background image.
Proof.
  intros Hpath Hopen. unfold apply_subtitle_to_image. rewrite render_lines_unfold.
  unfold open_background. now rewrite Hpath, Hopen.
Qed.












(** * More on the compositing *)


Lemma apply_subtitles_size (B : Backend) (l : list Subtitle) :
  forall image final, apply_subtitles B image l = inr final -> size final = size image.
Proof.
  induction l as [|s l IH]; intros image final Hrun; cbn [apply_subtitles] in Hrun.
  - now inversion Hrun.
  - destruct (apply_subtitle_to_image B image s) as [next|e c] eqn:Hs; [|discriminate].
    apply apply_subtitle_to_image_size in Hs. apply IH in Hrun. congruence.
Qed.

(** X14. The output has the pixel dimensions of the input: an application
    returns a canvas of the size it was given, and a subtitle group
    returns one of the size of the image it opened. *)
Theorem output_size (B : Backend) :
  (forall image subtitle final,
     apply_subtitle_to_image B image subtitle = Returned final ->
     size final = size image)
  /\ (forall self group final,
        apply_subtitle_group B self group = inr final ->
        exists image,
          Image_open B (os_path_join B (input_image_directory (subtitle_model self))
                          (image_id group)) = Some image
          /\ size final = size image).
Proof.
  split.
  - intros image subtitle final. apply apply_subtitle_to_image_size.
  - intros self group final. unfold apply_subtitle_group. cbv zeta.
    destruct (Image_open B _) as [image|]; [|discriminate].
    intros Hrun. exists image. split; [reflexivity|]. now apply apply_subtitles_size in Hrun.
Qed.

Lemma apply_subtitles_app (B : Backend) (first : list Subtitle) :
  forall second image,
    apply_subtitles B image (first ++ second)
    = (mid <- apply_subtitles B image first ;; apply_subtitles B mid second).
Proof.
  induction first as [|s l IH]; intros second image; [reflexivity|].
  cbn [app apply_subtitles].
  destruct (apply_subtitle_to_image B image s) as [next|e c]; [apply IH|reflexivity].
Qed.

(** X15. A subtitle that raises stops the group: the subtitles after it
    are not applied and its exception is the group's, whatever the
    subtitles before it drew. *)
Theorem group_stops_at_first_error (B : Backend) (image mid c : Image)
    (before after : list Subtitle) (failing : Subtitle) (e : exn) :
  apply_subtitles B image before = inr mid ->
  apply_subtitle_to_image B mid failing = Raised e c ->
  apply_subtitles B image (before ++ failing :: after) = inl e.
Proof.
  intros Hbefore Hfail. rewrite apply_subtitles_app, Hbefore. cbn [bind apply_subtitles].
  now rewrite Hfail.
Qed.

Lemma last_In {A} (l : list A) (d : A) : l <> [] -> In (last l d) l.
Proof.
  intros Hne. destruct (exists_last Hne) as [l' [x ->]]. rewrite last_last.
  apply in_or_app. right. now left.
Qed.

Lemma composite_transparent (x y : Z) (pasted : list Image) :
  forall base,
    Forall (fun layer => alpha (getpixel layer x y) = x00) pasted ->
    getpixel (composite base pasted) x y = getpixel base x y.
Proof.
  induction pasted as [|l pasted IH]; intros base Hall; [reflexivity|].
  inversion Hall; subst. cbn [composite fold_left].
  change (fold_left (fun c layer => paste c layer layer) pasted (paste base l l))
    with (composite (paste base l l) pasted).
  rewrite IH by assumption. now apply paste_transparent.
Qed.

(** X16. A pixel that no layer inks is left alone: where the fill layer
    is fully transparent after every line and so are the outline layers
    as pasted, the returned canvas shows what the caller's canvas showed
    after the background paste (and the caller's own pixel when no
    background is configured). *)
Theorem uninked_pixel_untouched (B : Backend) (image final : Image) (subtitle : Subtitle)
    (wrapped_text : list text) (font : Font) (text_height : Z) (st : layers) (x y : Z) :
  let p := subtitle_profile subtitle in
  apply_subtitle_to_image B image subtitle = Returned final ->
  analyze_text B subtitle = inr (wrapped_text, font, text_height) ->
  render_lines B image subtitle = inr st ->
  Forall (fun pass => alpha (getpixel (text_layer pass) x y) = x00)
    (line_passes B image subtitle wrapped_text font text_height) ->
  Forall (fun layer => alpha (getpixel layer x y) = x00)
    (outline_pastes B (outline_data_2 p) (outline_2_layer st)
     ++ outline_pastes B (outline_data_1 p) (outline_1_layer st)) ->
  getpixel final x y = getpixel (composite image (background_pastes B p)) x y
  /\ (background_image_path p = None -> getpixel final x y = getpixel image x y).
Proof.
  intros p Hret Han Hst Hfills Houtlines. subst p.
  unfold apply_subtitle_to_image in Hret. rewrite Hst in Hret.
  inversion Hret; subst final. clear Hret.
  destruct (render_lines_returned _ _ _ _ Hst)
    as [w [f [h [Han' [Hlast [Hlen [Hcanvas _]]]]]]].
  rewrite Han in Han'. inversion Han'; subst w f h. clear Han'.
  assert (In st (line_passes B image subtitle wrapped_text font text_height)) as Hin.
  { rewrite Hlast at 1. apply last_In. intros E. rewrite E in Hlen.
    apply analyze_text_lines in Han. destruct Han as [_ [_ Hne]].
    destruct wrapped_text; [congruence|discriminate]. }
  assert (getpixel (apply_paste B (subtitle_profile subtitle) st) x y
          = getpixel (composite image (background_pastes B (subtitle_profile subtitle))) x y)
    as Hpix.
  { rewrite apply_paste_composite.
    rewrite composite_transparent.
    - rewrite Hcanvas, composite_app. apply composite_transparent. now apply Forall_map.
    - rewrite app_assoc. apply Forall_app. split; [assumption|].
      constructor; [|constructor].
      rewrite Forall_forall in Hfills. now apply Hfills. }
  split; [exact Hpix|].
  intros Hnone. rewrite Hpix. unfold background_pastes. now rewrite Hnone.
Qed.

(** The line loop does not blur. *)
Lemma add_text_blur (B : Backend) (blur : Q -> Image -> raster) (font : Font)
    (p : SubtitleProfile) (W Ht H n s : Z) (lines : list text) :
  forall st i,
    add_text (mkBackend (os_path_join B) (Image_open B) (truetype B) (draw_text B) blur)
      font p W Ht H n s st i lines
    = add_text B font p W Ht H n s st i lines.
Proof.
  induction lines as [|line rest IH]; intros st i; [reflexivity|].
  cbn [add_text]. destruct (line_pos font (textbox_data p) W Ht H n s i line);
    [reflexivity|].
  rewrite IH. reflexivity.
Qed.

Lemma render_lines_blur (B : Backend) (blur : Q -> Image -> raster)
    (image : Image) (subtitle : Subtitle) :
  render_lines (mkBackend (os_path_join B) (Image_open B) (truetype B) (draw_text B) blur)
    image subtitle
  = render_lines B image subtitle.
Proof.
  unfold render_lines.
  change (open_background (mkBackend (os_path_join B) (Image_open B) (truetype B)
                             (draw_text B) blur) image (subtitle_profile subtitle))
    with (open_background B image (subtitle_profile subtitle)).
  destruct (open_background B image (subtitle_profile subtitle)) as [e|image0];
    [reflexivity|].
  destruct (size image0) as [W Ht].
  change (analyze_text (mkBackend (os_path_join B) (Image_open B) (truetype B)
                          (draw_text B) blur) subtitle)
    with (analyze_text B subtitle).
  destruct (analyze_text B subtitle) as [e|[[wrapped_text font] text_height]];
    [reflexivity|].
  now rewrite add_text_blur.
Qed.

(** X17. Blur is a no-op when the blur radius is unset or zero: if that is
    so for every configured outline, the application does the same with
    any Gaussian blur in place of Pillow's. *)
Theorem blur_unset_or_zero (B : Backend) (blur : Q -> Image -> raster)
    (image : Image) (subtitle : Subtitle) :
  let p := subtitle_profile subtitle in
  let no_blur (o : option OutlineData.t) :=
    forall outline radius,
      o = Some outline -> OutlineData.blur_strength outline = Some radius ->
      (radius == 0)%Q in
  no_blur (outline_data_1 p) -> no_blur (outline_data_2 p) ->
  apply_subtitle_to_image
    (mkBackend (os_path_join B) (Image_open B) (truetype B) (draw_text B) blur)
    image subtitle
  = apply_subtitle_to_image B image subtitle.
Proof.
  intros p no_blur H1 H2. unfold apply_subtitle_to_image.
  rewrite render_lines_blur.
  destruct (render_lines B image subtitle) as [[e c]|st]; [reflexivity|]. f_equal.
  assert (forall o B' layer,
             no_blur (Some o) -> blurred B' o layer = layer) as Hblurred.
  { intros o B' layer Hno. unfold blurred.
    destruct (OutlineData.blur_strength o) as [radius|] eqn:Hr; [|reflexivity].
    specialize (Hno o radius eq_refl Hr). apply Qeq_bool_iff in Hno. now rewrite Hno. }
  unfold apply_paste. fold p.
  destruct (outline_data_2 p) as [o2|]; destruct (outline_data_1 p) as [o1|];
    rewrite ?Hblurred by assumption; reflexivity.
Qed.

(** A paste changes a pixel from that pixel alone. *)
Lemma paste_pixel (c1 c2 layer : Image) (x y : Z) :
  size c1 = size c2 -> getpixel c1 x y = getpixel c2 x y ->
  getpixel (paste c1 layer layer) x y = getpixel (paste c2 layer layer) x y.
Proof. intros Hsize Hpix. cbn [paste getpixel]. now rewrite Hsize, Hpix. Qed.

Lemma composite_pixel (x y : Z) (pasted : list Image) :
  forall c1 c2,
    size c1 = size c2 -> getpixel c1 x y = getpixel c2 x y ->
    getpixel (composite c1 pasted) x y = getpixel (composite c2 pasted) x y.
Proof.
  induction pasted as [|l pasted IH]; intros c1 c2 Hsize Hpix; [exact Hpix|].
  cbn [composite fold_left]. apply IH; [exact Hsize|now apply paste_pixel].
Qed.

(** X18. The fill layer is pasted once per line and once more at the end.
    At a pixel where the fill ink is all or nothing and, once drawn,
    stays as it is, the pastes per line change nothing: the returned
    canvas shows what the final pastes alone, outline 2, outline 1 and
    fill over the canvas with its background, would show. *)
Theorem per_line_pastes_redundant (B : Backend) (image final : Image)
    (subtitle : Subtitle) (wrapped_text : list text) (font : Font) (text_height : Z)
    (st : layers) (x y : Z) :
  let p := subtitle_profile subtitle in
  apply_subtitle_to_image B image subtitle = Returned final ->
  analyze_text B subtitle = inr (wrapped_text, font, text_height) ->
  render_lines B image subtitle = inr st ->
  inside (size image) x y = true ->
  Forall (fun pass =>
            alpha (getpixel (text_layer pass) x y) = x00
            \/ (alpha (getpixel (text_layer pass) x y) = xff
                /\ getpixel (text_layer st) x y = getpixel (text_layer pass) x y))
    (line_passes B image subtitle wrapped_text font text_height) ->
  getpixel final x y
  = getpixel (apply_paste B p
                (mkLayers (composite image (background_pastes B p))
                   (text_layer st) (outline_1_layer st) (outline_2_layer st))) x y.
Proof.
  intros p Hret Han Hst Hin Hink. subst p.
  unfold apply_subtitle_to_image in Hret. rewrite Hst in Hret.
  inversion Hret; subst final. clear Hret.
  destruct (render_lines_returned _ _ _ _ Hst)
    as [w [f [h [Han' [Hlast [Hlen [Hcanvas Hsized]]]]]]].
  rewrite Han in Han'. inversion Han'; subst w f h. clear Han'.
  assert (In st (line_passes B image subtitle wrapped_text font text_height)) as Hlastin.
  { rewrite Hlast at 1. apply last_In. intros E. rewrite E in Hlen.
    apply analyze_text_lines in Han. destruct Han as [_ [_ Hne]].
    destruct wrapped_text; [congruence|discriminate]. }
  set (alone := mkLayers (composite image (background_pastes B (subtitle_profile subtitle)))
                  (text_layer st) (outline_1_layer st) (outline_2_layer st)).
  assert (sized (size image) alone) as Hsized'.
  { destruct Hsized as [_ [Ht [H1 H2]]]. repeat split; try assumption.
    apply size_composite. }
  pose proof (proj1 (Forall_forall _ _) Hink st Hlastin) as Hfinal.
  destruct Hfinal as [Hclear|[Hopaque _]].
  - (* no fill ink here at the end, hence none after any line *)
    assert (Forall (fun pass => alpha (getpixel (text_layer pass) x y) = x00)
              (line_passes B image subtitle wrapped_text font text_height)) as Hnone.
    { eapply Forall_impl; [|exact Hink]. intros pass [H0|[Hff Hsame]]; [exact H0|].
      rewrite Hsame, Hff in Hclear. discriminate. }
    rewrite !apply_paste_composite. apply composite_pixel.
    + destruct Hsized as [Hc _]. rewrite Hc. symmetry. apply size_composite.
    + rewrite Hcanvas, composite_app. apply composite_transparent. now apply Forall_map.
  - rewrite (proj1 (apply_paste_pixels B _ st (size image) x y Hsized Hin) Hopaque).
    now rewrite (proj1 (apply_paste_pixels B _ alone (size image) x y Hsized' Hin) Hopaque).
Qed.

(** * The batch driver *)

Lemma validate_images_fails (os : Os) (by_image : dict SubtitleGroup)
    (image_id : string) (group : SubtitleGroup) :
  In (image_id, group) by_image -> validate_subtitle_group os group <> None ->
  validate_images os by_image <> None.
Proof.
  induction by_image as [|[k g] rest IH]; intros Hin Hbad; [destruct Hin|].
  cbn [validate_images]. destruct (validate_subtitle_group os g) eqn:Hg; [discriminate|].
  destruct Hin as [E|Hin]; [inversion E; subst; congruence|now apply IH].
Qed.

Lemma validate_texts_fails (os : Os) (groups : dict (dict SubtitleGroup))
    (text_id : string) (by_image : dict SubtitleGroup) :
  In (text_id, by_image) groups -> validate_images os by_image <> None ->
  validate_texts os groups <> None.
Proof.
  induction groups as [|[k b] rest IH]; intros Hin Hbad; [destruct Hin|].
  cbn [validate_texts]. destruct (validate_images os b) eqn:Hb; [discriminate|].
  destruct Hin as [E|Hin]; [inversion E; subst; congruence|now apply IH].
Qed.

(** X19. Validation comes before any output: if a single subtitle group,
    of any text, does not validate, [add_subtitles] raises and no file
    has been saved and no directory made. *)
Theorem validation_before_output (B : Backend) (os : Os) (da : DataAccess) (w : World)
    (text_id image_id : string) (by_image : dict SubtitleGroup) (group : SubtitleGroup) :
  In (text_id, by_image) (get_subtitle_groups da) ->
  In (image_id, group) by_image ->
  validate_subtitle_group os group <> None ->
  exists message, add_subtitles B os da w = (Some (Invalid message), w).
Proof.
  intros Htext Himage Hbad. unfold add_subtitles.
  pose proof (validate_texts_fails os _ _ _ Htext
                (validate_images_fails os _ _ _ Himage Hbad)) as Hfail.
  destruct (validate_texts os (get_subtitle_groups da)) as [message|]; [|congruence].
  now exists message.
Qed.

Lemma files_save_other (w : World) (path p : string) (image : Image) :
  p <> path -> files (save w path image) p = files w p.
Proof. intros Hne. cbn. apply String.eqb_neq in Hne. now rewrite Hne. Qed.

Lemma files_save_same (w : World) (path : string) (image : Image) :
  files (save w path image) path = Some image.
Proof. cbn. now rewrite String.eqb_refl. Qed.

Lemma files_save_kept (w : World) (path p : string) (image : Image) :
  files w p <> None -> files (save w path image) p <> None.
Proof. intros H. cbn. now destruct (p =? path)%string. Qed.

(** The image loop writes to its output paths only, deletes nothing, and
    when it completes every output path holds an image. *)
Lemma process_images_files (B : Backend) (os : Os) (self : SubtitleService)
    (by_image : dict SubtitleGroup) (out : string) (paths : list string) :
  forall w r w',
    process_images B os self by_image out w paths = (r, w') ->
    (forall p, ~ In p (output_paths_of B os out paths) -> files w' p = files w p)
    /\ (forall p, files w p <> None -> files w' p <> None)
    /\ (r = None -> forall p, In p (output_paths_of B os out paths) -> files w' p <> None).
Proof.
  induction paths as [|image_path rest IH]; intros w r w' Hrun;
    cbn [process_images output_paths_of map] in *.
  - inversion Hrun; subst. repeat split; auto; try (intros _ p []); try (now intros _ p []).
  - fold (output_paths_of B os out rest) in *.
    set (target := os_path_join B out (basename os image_path)) in *.
    assert (forall img,
               process_images B os self by_image out (save w target img) rest = (r, w') ->
               (forall p, ~ In p (target :: output_paths_of B os out rest) ->
                          files w' p = files w p)
               /\ (forall p, files w p <> None -> files w' p <> None)
               /\ (r = None -> forall p, In p (target :: output_paths_of B os out rest) ->
                                          files w' p <> None)) as Hsaved.
    { intros img Hrest. apply IH in Hrest. destruct Hrest as [Hframe [Hkept Hall]].
      split; [|split].
      - intros p Hp. rewrite Hframe by (intros Hin; apply Hp; now right).
        apply files_save_other. intros ->. apply Hp. now left.
      - intros p Hp. now apply Hkept, files_save_kept.
      - intros Hr p [<-|Hin]; [|now apply Hall].
        apply Hkept. rewrite files_save_same. discriminate. }
    destruct (dict_get by_image (basename os image_path)) as [group|].
    + destruct (apply_subtitle_group (on_world B w) self group) as [e|processed].
      * inversion Hrun; subst. repeat split; auto. discriminate.
      * now apply Hsaved in Hrun.
    + destruct (files w image_path) as [img|].
      * now apply Hsaved in Hrun.
      * inversion Hrun; subst. repeat split; auto. discriminate.
Qed.

Lemma process_texts_files (B : Backend) (os : Os) (da : DataAccess)
    (groups : dict (dict SubtitleGroup)) :
  forall w r w',
    process_texts B os da w groups = (r, w') ->
    let outputs :=
      flat_map (fun item => output_paths_of B os (output_directory_of B os da (fst item))
                              (get_image_paths da)) groups in
    (forall p, ~ In p outputs -> files w' p = files w p)
    /\ (forall p, files w p <> None -> files w' p <> None)
    /\ (r = None -> forall p, In p outputs -> files w' p <> None).
Proof.
  induction groups as [|[text_id by_image] rest IH]; intros w r w' Hrun;
    cbn [process_texts flat_map fst] in *.
  - inversion Hrun; subst. repeat split; auto; try (intros _ p []); try (now intros _ p []).
  - set (out := output_directory_of B os da text_id) in *.
    set (w0 := if path_exists w out then w
               else mkWorld (files w) (makedirs os (directories w) out)) in *.
    assert (files w0 = files w) as Hw0 by (unfold w0; now destruct (path_exists w out)).
    destruct (process_images B os (mkService (model da)) by_image out w0
                (get_image_paths da)) as [[e|] w1] eqn:Himages.
    + inversion Hrun; subst. apply process_images_files in Himages.
      destruct Himages as [Hframe [Hkept _]]. rewrite Hw0 in *.
      split; [|split]; [| |discriminate].
      * intros p Hp. apply Hframe. intros Hin. apply Hp. apply in_or_app. now left.
      * exact Hkept.
    + apply process_images_files in Himages. destruct Himages as [Hframe [Hkept Hall]].
      rewrite Hw0 in *.
      apply IH in Hrun. cbv zeta in Hrun. destruct Hrun as [Hframe' [Hkept' Hall']].
      split; [|split].
      * intros p Hp. rewrite Hframe' by (intros Hin; apply Hp; apply in_or_app; now right).
        apply Hframe. intros Hin. apply Hp. apply in_or_app. now left.
      * intros p Hp. now apply Hkept', Hkept.
      * intros Hr p Hin. apply in_app_or in Hin. destruct Hin as [Hin|Hin].
        -- apply Hkept'. now apply Hall.
        -- now apply Hall'.
Qed.

(** X20. [add_subtitles] saves to its output paths only, one per text and
    image path: every other file is, whatever happens, what it was
    before, and no file is ever removed. *)
Theorem other_files_untouched (B : Backend) (os : Os) (da : DataAccess) (w w' : World)
    (r : option batch_exn) :
  add_subtitles B os da w = (r, w') ->
  (forall p, ~ In p (output_paths B os da) -> files w' p = files w p)
  /\ (forall p, files w p <> None -> files w' p <> None).
Proof.
  unfold add_subtitles. cbv zeta.
  destruct (validate_texts os (get_subtitle_groups da)) as [message|].
  - intros E. inversion E; subst. now split.
  - intros Hrun. apply process_texts_files in Hrun. cbv zeta in Hrun.
    destruct Hrun as [Hframe [Hkept _]]. now split.
Qed.

(** X21. When [add_subtitles] completes, every image path has an output
    under the directory of every text: one file per text and image
    path. *)
Theorem every_image_has_an_output (B : Backend) (os : Os) (da : DataAccess)
    (w w' : World) (text_id image_path : string) (by_image : dict SubtitleGroup) :
  add_subtitles B os da w = (None, w') ->
  In (text_id, by_image) (get_subtitle_groups da) ->
  In image_path (get_image_paths da) ->
  files w' (os_path_join B (output_directory_of B os da text_id)
              (basename os image_path)) <> None.
Proof.
  unfold add_subtitles. cbv zeta.
  destruct (validate_texts os (get_subtitle_groups da)) as [message|]; [discriminate|].
  intros Hrun Htext Hpath. apply process_texts_files in Hrun. cbv zeta in Hrun.
  destruct Hrun as [_ [_ Hall]]. apply (Hall eq_refl).
  apply in_flat_map. exists (text_id, by_image). split; [assumption|].
  cbn [fst]. unfold output_paths_of.
  apply (in_map (fun image_path0 =>
                   os_path_join B (output_directory_of B os da text_id)
                     (basename os image_path0))).
  assumption.
Qed.




(** * The batch driver and further inputs, evaluated *)

(** X1, on concrete input.  Wrapping "hello world" to five columns. *)
Lemma wrapped_lines_fit_witness :
  wrapped [str "hello world"] 5 = inr [str "hello"; str "world"]
  /\ Forall (fun line => line <> [] /\ len line <= 5) [str "hello"; str "world"].
Proof.
  split; [reflexivity|].
  apply (wrapped_lines_fit [str "hello world"] 5). reflexivity.
Defined.

(** X3, on concrete input.  A line of spaces and tabs between two lines. *)
Lemma blank_line_is_dropped_witness :
  0 < 10 /\ whitespace_only [" "; "009"; " "]%char
  /\ wrapped ([str "a"] ++ [" "; "009"; " "]%char :: [str "b"]) 10
     = wrapped ([str "a"] ++ [str "b"]) 10.
Proof.
  split; [lia|]. split; [reflexivity|].
  apply (blank_line_is_dropped 10 [str "a"] [str "b"]); [lia|reflexivity].
Defined.

(** X4, on concrete input.  Ten letters to four columns. *)
Lemma long_word_is_chopped_witness :
  0 < 4 /\ solid (str "abcdefghij")
  /\ wrap (str "abcdefghij") 4 = inr [str "abcd"; str "efgh"; str "ij"].
Proof.
  assert (solid (str "abcdefghij")) as Hsolid by (repeat constructor).
  split; [lia|]. split; [exact Hsolid|].
  apply (long_word_is_chopped (str "abcdefghij") 4); [lia|exact Hsolid].
Defined.




(** X8, on concrete input.  No background file, and nothing else right either. *)
Lemma background_error_first_witness :
  Image_open Demo.pil "nowhere.png" = None
  /\ apply_subtitle_to_image Demo.pil Demo.base Demo.no_backdrop
     = Raised OSError_background Demo.base.
Proof.
  split; [reflexivity|].
  apply (background_error_first Demo.pil Demo.base Demo.no_backdrop "nowhere.png");
    reflexivity.
Defined.






(** X14, on concrete input.  The two subtitles of the demonstration on the 200x100 image. *)
Lemma output_size_witness :
  exists final,
    apply_subtitle_group Demo.pil Demo.service Demo.pair = inr final
    /\ size final = (200, 100).
Proof.
  destruct (apply_subtitle_group Demo.pil Demo.service Demo.pair) as [e|final] eqn:E;
    [discriminate E|].
  exists final. split; [reflexivity|].
  destruct (proj2 (output_size Demo.pil) Demo.service Demo.pair final E)
    as [image [Hopen Hsize]].
  rewrite Hsize. inversion Hopen. reflexivity.
Defined.

(** X15, on concrete input.  A subtitle with a wrong alignment between two good ones. *)
Lemma group_stops_at_first_error_witness :
  exists mid,
    apply_subtitles Demo.pil Demo.base [Demo.hello] = inr mid
    /\ apply_subtitles Demo.pil Demo.base ([Demo.hello] ++ Demo.justified :: [Demo.hello_red])
       = inl ValueError_alignment.
Proof.
  destruct (apply_subtitles Demo.pil Demo.base [Demo.hello]) as [e|mid] eqn:E;
    [discriminate E|].
  exists mid. split; [reflexivity|].
  apply (group_stops_at_first_error Demo.pil Demo.base mid
           (add_background mid Demo.backdrop) [Demo.hello] [Demo.hello_red]
           Demo.justified ValueError_alignment E).
  inversion E; subst mid. reflexivity.
Defined.

(** X16, on concrete input.  The corner of the canvas in the end-to-end scenario. *)
Lemma uninked_pixel_untouched_witness :
  exists final,
    apply_subtitle_to_image Demo.pil Demo.base Demo.hello = Returned final
    /\ getpixel final 0 0 = getpixel Demo.base 0 0.
Proof.
  destruct (apply_subtitle_to_image Demo.pil Demo.base Demo.hello) as [final|e c] eqn:E;
    [|discriminate E].
  destruct (render_lines Demo.pil Demo.base Demo.hello) as [err|st] eqn:Hst;
    [discriminate Hst|].
  exists final. split; [reflexivity|].
  apply (uninked_pixel_untouched Demo.pil Demo.base final Demo.hello
           [str "HELLO"] Demo.mono 20 st 0 0 E eq_refl Hst).
  - repeat constructor.
  - constructor.
  - reflexivity.
Defined.

(** X17, on concrete input.  The outlines of the demonstration, one without blur and one with a
    blur of zero, under a blur that would wipe the layer. *)
Lemma blur_unset_or_zero_witness :
  apply_subtitle_to_image
    (mkBackend (os_path_join Demo.pil) (Image_open Demo.pil) (truetype Demo.pil)
       (draw_text Demo.pil) (fun _ _ _ _ => Demo.clear))
    Demo.base Demo.outlined
  = apply_subtitle_to_image Demo.pil Demo.base Demo.outlined.
Proof.
  apply (blur_unset_or_zero Demo.pil (fun _ _ _ _ => Demo.clear) Demo.base Demo.outlined).
  - intros outline radius Ho Hr. inversion Ho; subst. discriminate Hr.
  - intros outline radius Ho Hr. inversion Ho; subst. inversion Hr. reflexivity.
Defined.

(** X18, on concrete input.  A pixel of the first of three lines. *)
Lemma per_line_pastes_redundant_witness :
  exists final st,
    apply_subtitle_to_image Demo.pil Demo.base Demo.three = Returned final
    /\ render_lines Demo.pil Demo.base Demo.three = inr st
    /\ getpixel final 75 0
       = getpixel (apply_paste Demo.pil (subtitle_profile Demo.three)
                     (mkLayers Demo.base (text_layer st) (outline_1_layer st)
                        (outline_2_layer st))) 75 0.
Proof.
  destruct (apply_subtitle_to_image Demo.pil Demo.base Demo.three) as [final|e c] eqn:E;
    [|discriminate E].
  destruct (render_lines Demo.pil Demo.base Demo.three) as [err|st] eqn:Hst;
    [discriminate Hst|].
  exists final, st. split; [reflexivity|]. split; [reflexivity|].
  apply (per_line_pastes_redundant Demo.pil Demo.base final Demo.three
           [str "ONE"; str "TWO"; str "SIX"] Demo.mono 20 st 75 0 E eq_refl Hst eq_refl).
  inversion Hst; subst st.
  repeat constructor; right; split; reflexivity.
Defined.

(** X19, on concrete input.  A group without subtitles next to a good one. *)
Lemma validation_before_output_witness :
  validate_subtitle_group Demo.os (mkGroup "0002.png" []) = Some "no subtitles"%string
  /\ exists message,
       add_subtitles Demo.pil Demo.os Demo.empty_group Demo.world
       = (Some (Invalid message), Demo.world).
Proof.
  split; [reflexivity|].
  apply (validation_before_output Demo.pil Demo.os Demo.empty_group Demo.world
           "texts/draft.txt" "0002.png"
           [("0001.png", Demo.pair); ("0002.png", mkGroup "0002.png" [])]%string
           (mkGroup "0002.png" [])).
  - now left.
  - right. now left.
  - discriminate.
Defined.

(** X20, on concrete input.  The run of the demonstration leaves its inputs alone. *)
Lemma other_files_untouched_witness :
  fst (add_subtitles Demo.pil Demo.os Demo.draft Demo.world) = None
  /\ files (snd (add_subtitles Demo.pil Demo.os Demo.draft Demo.world)) "input/0001.png"
     = files Demo.world "input/0001.png".
Proof.
  split; [reflexivity|].
  assert (add_subtitles Demo.pil Demo.os Demo.draft Demo.world
          = (None, snd (add_subtitles Demo.pil Demo.os Demo.draft Demo.world)))
    as Hrun by reflexivity.
  apply (proj1 (other_files_untouched Demo.pil Demo.os Demo.draft Demo.world _ _ Hrun)).
  intros [H|[H|[]]]; discriminate H.
Defined.

(** X21, on concrete input.  The run of the demonstration has an output for the second image. *)
Lemma every_image_has_an_output_witness :
  fst (add_subtitles Demo.pil Demo.os Demo.draft Demo.world) = None
  /\ files (snd (add_subtitles Demo.pil Demo.os Demo.draft Demo.world))
       "output/draft/0002.png" <> None.
Proof.
  split; [reflexivity|].
  assert (add_subtitles Demo.pil Demo.os Demo.draft Demo.world
          = (None, snd (add_subtitles Demo.pil Demo.os Demo.draft Demo.world)))
    as Hrun by reflexivity.
  apply (every_image_has_an_output Demo.pil Demo.os Demo.draft Demo.world _
           "texts/draft.txt" "input/0002.png" [("0001.png", Demo.pair)]%string Hrun).
  - now left.
  - right. now left.
Defined.

